(** * The real-time connection manager of the vinyl storefront

    A shallow embedding of [websocket/socketManager.js] (class
    [SocketManager]): the three indexes ([clients], [rooms],
    [userSockets]), the inbound message handler, the send and broadcast
    primitives, the close/error cleanup and the heartbeat sweep.

    JavaScript [Map]s are [gmap]s and [Set]s are [gset]s; a connection is
    known by the identity of its [ws] object, here a natural number; the
    methods run in a state monad with exceptions, since a JavaScript
    exception leaves the mutations made before it in place. *)

From Stdlib Require Import ZArith Floats.SpecFloat.
From stdpp Require Import gmap strings list fin_maps fin_sets.

Local Open Scope Z_scope.

(** ** JavaScript values *)

Module JS.

(** A [Number] is an IEEE 754 binary64 value. *)
Abbreviation prec := 53%Z (only parsing).
Abbreviation emax := 1024%Z (only parsing).

Definition number_of_Z (n : Z) : spec_float := binary_normalize prec emax n 0 false.

Definition sub (x y : spec_float) : spec_float := SFsub prec emax x y.
Definition div (x y : spec_float) : spec_float := SFdiv prec emax x y.
Definition mul (x y : spec_float) : spec_float := SFmul prec emax x y.

(** [x > y] *)
Definition gt (x y : spec_float) : bool := SFltb y x.

(** [Math.round]: the integral number closest to [x], the one closer to
    +∞ in a tie; an argument that is already integral, infinite or NaN
    is returned as it is, and a negative argument no smaller than -0.5
    gives -0. *)
Definition Math_round (x : spec_float) : spec_float :=
  match x with
  | S754_finite s m e =>
      if 0 <=? e then x
      else
        let v := if s then Z.neg m else Z.pos m in
        let n := Z.shiftr (2 * v + Z.shiftl 1 (- e)) (- e + 1) in
        if n =? 0 then S754_zero s else number_of_Z n
  | _ => x
  end.

(** The values a message or a payload is built from. *)
#[warnings="-register-all"]
Inductive jsval : Type :=
  | JUndefined
  | JNull
  | JBool (b : bool)
  | JNum (x : spec_float)
  | JStr (s : string)
  | JBigInt (n : Z)
  | JArr (items : list jsval)
  | JObj (fields : list (string * jsval)).

(** [JSON.stringify] throws a [TypeError] on a [BigInt], wherever it sits
    in the value. *)
Fixpoint serialisable (v : jsval) : bool :=
  match v with
  | JBigInt _ => false
  | JArr items => forallb serialisable items
  | JObj fields => forallb (λ f, serialisable (snd f)) fields
  | _ => true
  end.

(** Assignment to a property of an object literal: a key already there
    keeps its place and takes the new value. *)
Fixpoint set_field (k : string) (v : jsval) (fields : list (string * jsval))
  : list (string * jsval) :=
  match fields with
  | [] => [(k, v)]
  | (k', v') :: rest =>
      if String.eqb k k' then (k, v) :: rest else (k', v') :: set_field k v rest
  end.

Fixpoint get_field (k : string) (fields : list (string * jsval)) : jsval :=
  match fields with
  | [] => JUndefined
  | (k', v') :: rest => if String.eqb k k' then v' else get_field k rest
  end.

Definition field (k : string) (v : jsval) : jsval :=
  match v with
  | JObj fields => get_field k fields
  | _ => JUndefined
  end.

End JS.

(** ** The registry and the transport it sits on *)

Module SM.
Import JS.

(** What the run time hands to a handler: the clock ([new Date()] as an
    ISO string) and the random suffix of a generated identifier. *)
Record Env := mkEnv { now : string; generated : string }.

Definition generateClientId (env : Env) : string := "client_" +:+ generated env.
Definition generateNotificationId (env : Env) : string := "notif_" +:+ generated env.

(** A key of the [trackedProducts] set: a product identifier is a number
    or a string on the wire. *)
Inductive ProductId := PNum (n : Z) | PStr (s : string).

#[global] Instance ProductId_eq_dec : EqDecision ProductId.
Proof. solve_decision. Defined.

#[global] Instance ProductId_countable : Countable ProductId.
Proof.
  refine (inj_countable'
            (λ p, match p with PNum n => inl n | PStr s => inr s end)
            (λ x, match x with inl n => PNum n | inr s => PStr s end) _).
  by intros [].
Defined.

Definition js_of_product (p : ProductId) : jsval :=
  match p with PNum n => JNum (number_of_Z n) | PStr s => JStr s end.

(** [clientInfo], the value of the [clients] map. *)
Record ClientInfo := mkClientInfo {
  id : string;
  userId : option Z;
  connectedAt : string;
  lastActivity : string;
  ci_rooms : gset string;
  trackedProducts : gset ProductId
}.

(** The fields of a [ws] object the manager reads or writes. *)
Inductive ReadyState := CONNECTING | OPEN | CLOSING | CLOSED.

Record Socket := mkSocket { readyState : ReadyState; isAlive : bool }.

Inductive LogLevel := info | warn | error.

(** What leaves the manager: frames written to a connection (the JSON
    text stands as the value it encodes), transport pings, forced
    terminations and log lines. *)
Inductive Effect :=
  | Send (ws : nat) (data : jsval)
  | Ping (ws : nat)
  | Terminate (ws : nat)
  | Log (level : LogLevel).

Record State := mkState {
  clients : gmap nat ClientInfo;
  rooms : gmap string (gset nat);
  userSockets : gmap Z (gset nat);
  wss_clients : gset nat;
  sockets : gmap nat Socket;
  heartbeatInterval : bool;
  effects : list Effect
}.

Definition set_clients (f : gmap nat ClientInfo → gmap nat ClientInfo) (s : State) : State :=
  mkState (f (clients s)) (rooms s) (userSockets s) (wss_clients s) (sockets s)
          (heartbeatInterval s) (effects s).
Definition set_rooms (f : gmap string (gset nat) → gmap string (gset nat)) (s : State) : State :=
  mkState (clients s) (f (rooms s)) (userSockets s) (wss_clients s) (sockets s)
          (heartbeatInterval s) (effects s).
Definition set_userSockets (f : gmap Z (gset nat) → gmap Z (gset nat)) (s : State) : State :=
  mkState (clients s) (rooms s) (f (userSockets s)) (wss_clients s) (sockets s)
          (heartbeatInterval s) (effects s).
Definition set_wss_clients (f : gset nat → gset nat) (s : State) : State :=
  mkState (clients s) (rooms s) (userSockets s) (f (wss_clients s)) (sockets s)
          (heartbeatInterval s) (effects s).
Definition set_sockets (f : gmap nat Socket → gmap nat Socket) (s : State) : State :=
  mkState (clients s) (rooms s) (userSockets s) (wss_clients s) (f (sockets s))
          (heartbeatInterval s) (effects s).
Definition set_heartbeatInterval (b : bool) (s : State) : State :=
  mkState (clients s) (rooms s) (userSockets s) (wss_clients s) (sockets s)
          b (effects s).
Definition emit (e : Effect) (s : State) : State :=
  mkState (clients s) (rooms s) (userSockets s) (wss_clients s) (sockets s)
          (heartbeatInterval s) (effects s ++ [e]).

(** The state the constructor leaves: empty indexes, the timer armed. *)
Definition initial : State := mkState ∅ ∅ ∅ ∅ ∅ true [].

(** *** The monad of the methods *)

Inductive Exn := TypeError | SyntaxError.

Inductive Outcome (A : Type) : Type :=
  | Normal (a : A)
  | Thrown (e : Exn).
Arguments Normal {A} a.
Arguments Thrown {A} e.

Definition M (A : Type) : Type := State → Outcome A * State.

Definition ret {A} (a : A) : M A := λ s, (Normal a, s).
Definition bind {A B} (m : M A) (k : A → M B) : M B :=
  λ s, match m s with
       | (Normal a, s') => k a s'
       | (Thrown e, s') => (Thrown e, s')
       end.
Definition throw {A} (e : Exn) : M A := λ s, (Thrown e, s).
Definition try_catch (body : M unit) (handler : Exn → M unit) : M unit :=
  λ s, match body s with
       | (Normal a, s') => (Normal a, s')
       | (Thrown e, s') => handler e s'
       end.
Definition get : M State := λ s, (Normal s, s).
Definition modify (f : State → State) : M unit := λ s, (Normal tt, f s).

Declare Scope js_scope.
Delimit Scope js_scope with js.
Notation "x <- m ;; k" := (bind m (λ x, k))
  (at level 100, m at next level, right associativity) : js_scope.
Notation "m ;; k" := (bind m (λ _, k))
  (at level 100, right associativity) : js_scope.
Local Open Scope js_scope.

(** [collection.forEach(f)] over the elements in iteration order. *)
Fixpoint forEach {A} (l : list A) (f : A → M unit) : M unit :=
  match l with
  | [] => ret tt
  | x :: rest => f x ;; forEach rest f
  end.

Definition exec {A} (m : M A) (s : State) : State := snd (m s).
Definition outcome {A} (m : M A) (s : State) : Outcome A := fst (m s).

(** *** Reads and writes on the [ws] objects *)

Definition is_open (s : State) (ws : nat) : bool :=
  match sockets s !! ws with
  | Some sk => match readyState sk with OPEN => true | _ => false end
  | None => false
  end.

Definition is_alive (s : State) (ws : nat) : bool :=
  match sockets s !! ws with
  | Some sk => isAlive sk
  | None => false
  end.

Definition set_isAlive (ws : nat) (b : bool) : M unit :=
  modify (set_sockets (alter (λ sk, mkSocket (readyState sk) b) ws)).

Definition ws_send (ws : nat) (text : jsval) : M unit := modify (emit (Send ws text)).
Definition ws_ping (ws : nat) : M unit := modify (emit (Ping ws)).

(** [ws.terminate()]: the socket is destroyed at once and the object,
    unless already closed, is left closing; its [close] event comes
    later. *)
Definition ws_terminate (ws : nat) : M unit :=
  modify (emit (Terminate ws)) ;;
  modify (set_sockets (alter (λ sk, match readyState sk with
                                    | CLOSED => sk
                                    | _ => mkSocket CLOSING (isAlive sk)
                                    end) ws)).

Definition logger (level : LogLevel) : M unit := modify (emit (Log level)).

Definition JSON_stringify (v : jsval) : M jsval :=
  if serialisable v then ret v else throw TypeError.

(** *** Messages *)

Definition js_of_userId (u : option Z) : jsval :=
  match u with Some n => JNum (number_of_Z n) | None => JUndefined end.

Definition js_of_size {K} `{Countable K} (X : gset K) : jsval :=
  JNum (number_of_Z (Z.of_nat (size X))).

(** Truthiness of [userId]: [undefined] and [0] are falsy. *)
Definition truthy (u : option Z) : bool :=
  match u with Some n => negb (n =? 0) | None => false end.

Definition WELCOME (clientId ts : string) : jsval :=
  JObj [("type", JStr "WELCOME"); ("clientId", JStr clientId); ("timestamp", JStr ts)].
Definition ROOM_JOINED (room : string) (userCount : jsval) (ts : string) : jsval :=
  JObj [("type", JStr "ROOM_JOINED"); ("room", JStr room); ("userCount", userCount);
        ("timestamp", JStr ts)].
Definition USER_JOINED (user : option Z) (userCount : jsval) (ts : string) : jsval :=
  JObj [("type", JStr "USER_JOINED"); ("userId", js_of_userId user);
        ("userCount", userCount); ("timestamp", JStr ts)].
Definition ROOM_LEFT (room ts : string) : jsval :=
  JObj [("type", JStr "ROOM_LEFT"); ("room", JStr room); ("timestamp", JStr ts)].
Definition USER_LEFT (user : option Z) (userCount : jsval) (ts : string) : jsval :=
  JObj [("type", JStr "USER_LEFT"); ("userId", js_of_userId user);
        ("userCount", userCount); ("timestamp", JStr ts)].
Definition PRODUCT_TRACKED (p : ProductId) (ts : string) : jsval :=
  JObj [("type", JStr "PRODUCT_TRACKED"); ("productId", js_of_product p);
        ("timestamp", JStr ts)].
Definition PRODUCT_UNTRACKED (p : ProductId) (ts : string) : jsval :=
  JObj [("type", JStr "PRODUCT_UNTRACKED"); ("productId", js_of_product p);
        ("timestamp", JStr ts)].
Definition USER_TYPING (user : option Z) (ts : string) : jsval :=
  JObj [("type", JStr "USER_TYPING"); ("userId", js_of_userId user);
        ("timestamp", JStr ts)].
Definition PONG (ts : string) : jsval :=
  JObj [("type", JStr "PONG"); ("timestamp", JStr ts)].
Definition PRODUCT_UPDATE (p : ProductId) (data : jsval) (ts : string) : jsval :=
  JObj [("type", JStr "PRODUCT_UPDATE"); ("productId", js_of_product p);
        ("data", data); ("timestamp", JStr ts)].
Definition STOCK_UPDATE (p : ProductId) (newStock oldStock : jsval) (ts : string) : jsval :=
  JObj [("type", JStr "STOCK_UPDATE"); ("productId", js_of_product p);
        ("newStock", newStock); ("oldStock", oldStock); ("timestamp", JStr ts)].

(** [oldPrice > newPrice ? Math.round(((oldPrice - newPrice) / oldPrice) * 100) : 0] *)
Definition discount (newPrice oldPrice : spec_float) : spec_float :=
  if gt oldPrice newPrice
  then Math_round (mul (div (sub oldPrice newPrice) oldPrice) (number_of_Z 100))
  else number_of_Z 0.

Definition PRICE_UPDATE (p : ProductId) (newPrice oldPrice : spec_float) (ts : string)
  : jsval :=
  JObj [("type", JStr "PRICE_UPDATE"); ("productId", js_of_product p);
        ("newPrice", JNum newPrice); ("oldPrice", JNum oldPrice);
        ("discount", JNum (discount newPrice oldPrice)); ("timestamp", JStr ts)].
Definition NEW_PRODUCT (product : jsval) (ts : string) : jsval :=
  JObj [("type", JStr "NEW_PRODUCT"); ("product", product); ("timestamp", JStr ts)].
Definition USER_ACTIVITY (user : Z) (activity : jsval) (ts : string) : jsval :=
  JObj [("type", JStr "USER_ACTIVITY"); ("userId", JNum (number_of_Z user));
        ("activity", activity); ("timestamp", JStr ts)].

(** [{ ...notification, id: ..., timestamp: ... }] for a notification
    that is an object with the given fields. *)
Definition NOTIFICATION (notification : list (string * jsval)) (nid ts : string) : jsval :=
  JObj [("type", JStr "NOTIFICATION");
        ("notification",
          JObj (set_field "timestamp" (JStr ts) (set_field "id" (JStr nid) notification)))].
Definition ANALYTICS_UPDATE (data : jsval) (ts : string) : jsval :=
  JObj [("type", JStr "ANALYTICS_UPDATE"); ("data", data); ("timestamp", JStr ts)].

(** *** The send and broadcast primitives *)

Definition sendToClient (ws : nat) (message : jsval) : M unit :=
  s <- get ;;
  if is_open s ws
  then (text <- JSON_stringify message ;; ws_send ws text)
  else ret tt.

(** A [filter] closure reads [this.clients] when it is called. *)
Definition broadcast (message : jsval) (filter : option (gmap nat ClientInfo → nat → bool))
  : M unit :=
  messageStr <- JSON_stringify message ;;
  s <- get ;;
  forEach (elements (wss_clients s)) (λ client,
    s <- get ;;
    if is_open s client
    then if match filter with None => true | Some f => f (clients s) client end
         then ws_send client messageStr
         else ret tt
    else ret tt).

Definition is_excluded (excludeWs : option nat) (client : nat) : bool :=
  match excludeWs with Some ws => Nat.eqb client ws | None => false end.

Definition broadcastToRoom (roomName : string) (message : jsval) (excludeWs : option nat)
  : M unit :=
  s <- get ;;
  match rooms s !! roomName with
  | None => ret tt
  | Some members =>
      messageStr <- JSON_stringify message ;;
      forEach (elements members) (λ client,
        s <- get ;;
        if is_open s client && negb (is_excluded excludeWs client)
        then ws_send client messageStr
        else ret tt)
  end.

(** *** Room membership *)

(** [this.rooms.get(roomName)]; a property read on [undefined] throws. *)
Definition rooms_get (roomName : string) : M (gset nat) :=
  s <- get ;;
  match rooms s !! roomName with
  | Some members => ret members
  | None => throw TypeError
  end.

Definition userSockets_get (user : Z) : M (gset nat) :=
  s <- get ;;
  match userSockets s !! user with
  | Some socks => ret socks
  | None => throw TypeError
  end.

(** A mutation of the [clientInfo] object held in the map. *)
Definition update_client (ws : nat) (f : ClientInfo → ClientInfo) : M unit :=
  modify (set_clients (alter f ws)).

Definition with_rooms (f : gset string → gset string) (c : ClientInfo) : ClientInfo :=
  mkClientInfo (id c) (userId c) (connectedAt c) (lastActivity c) (f (ci_rooms c))
               (trackedProducts c).
Definition with_trackedProducts (f : gset ProductId → gset ProductId) (c : ClientInfo)
  : ClientInfo :=
  mkClientInfo (id c) (userId c) (connectedAt c) (lastActivity c) (ci_rooms c)
               (f (trackedProducts c)).
Definition with_lastActivity (ts : string) (c : ClientInfo) : ClientInfo :=
  mkClientInfo (id c) (userId c) (connectedAt c) ts (ci_rooms c) (trackedProducts c).

Definition joinRoom (env : Env) (ws : nat) (roomName : string) : M unit :=
  s <- get ;;
  match clients s !! ws with
  | None => ret tt
  | Some clientInfo =>
      (match rooms s !! roomName with
       | None => modify (set_rooms <[roomName := ∅]>)
       | Some _ => ret tt
       end) ;;
      members <- rooms_get roomName ;;
      modify (set_rooms <[roomName := members ∪ {[ws]}]>) ;;
      update_client ws (with_rooms (λ rs, rs ∪ {[roomName]})) ;;
      members <- rooms_get roomName ;;
      sendToClient ws (ROOM_JOINED roomName (js_of_size members) (now env)) ;;
      members <- rooms_get roomName ;;
      broadcastToRoom roomName
        (USER_JOINED (userId clientInfo) (js_of_size members) (now env)) (Some ws)
  end.

Definition leaveRoom (env : Env) (ws : nat) (roomName : string) : M unit :=
  s <- get ;;
  match clients s !! ws, rooms s !! roomName with
  | Some clientInfo, Some _ =>
      members <- rooms_get roomName ;;
      modify (set_rooms <[roomName := members ∖ {[ws]}]>) ;;
      update_client ws (with_rooms (λ rs, rs ∖ {[roomName]})) ;;
      members <- rooms_get roomName ;;
      (if Nat.eqb (size members) 0
       then modify (set_rooms (delete roomName))
       else ret tt) ;;
      sendToClient ws (ROOM_LEFT roomName (now env))
  | _, _ => ret tt
  end.

Definition trackProduct (env : Env) (ws : nat) (productId : ProductId) : M unit :=
  s <- get ;;
  match clients s !! ws with
  | None => ret tt
  | Some clientInfo =>
      update_client ws (with_trackedProducts (λ ps, ps ∪ {[productId]})) ;;
      sendToClient ws (PRODUCT_TRACKED productId (now env))
  end.

Definition untrackProduct (env : Env) (ws : nat) (productId : ProductId) : M unit :=
  s <- get ;;
  match clients s !! ws with
  | None => ret tt
  | Some clientInfo =>
      update_client ws (with_trackedProducts (λ ps, ps ∖ {[productId]})) ;;
      sendToClient ws (PRODUCT_UNTRACKED productId (now env))
  end.

(** *** Broadcasting methods *)

Definition tracks (productId : ProductId) (clients : gmap nat ClientInfo) (ws : nat)
  : bool :=
  match clients !! ws with
  | Some clientInfo => bool_decide (productId ∈ trackedProducts clientInfo)
  | None => false
  end.

Definition broadcastProductUpdate (env : Env) (productId : ProductId) (updateData : jsval)
  : M unit :=
  broadcast (PRODUCT_UPDATE productId updateData (now env)) (Some (tracks productId)).

Definition broadcastStockUpdate (env : Env) (productId : ProductId)
    (newStock oldStock : jsval) : M unit :=
  broadcast (STOCK_UPDATE productId newStock oldStock (now env)) (Some (tracks productId)).

Definition broadcastPriceUpdate (env : Env) (productId : ProductId)
    (newPrice oldPrice : spec_float) : M unit :=
  broadcast (PRICE_UPDATE productId newPrice oldPrice (now env)) None.

Definition broadcastNewProduct (env : Env) (product : jsval) : M unit :=
  broadcastToRoom "new-releases" (NEW_PRODUCT product (now env)) None.

Definition other_user (user : Z) (clients : gmap nat ClientInfo) (ws : nat) : bool :=
  match clients !! ws with
  | Some clientInfo =>
      truthy (userId clientInfo) && negb (bool_decide (userId clientInfo = Some user))
  | None => false
  end.

Definition broadcastUserActivity (env : Env) (user : Z) (activity : jsval) : M unit :=
  broadcast (USER_ACTIVITY user activity (now env)) (Some (other_user user)).

Definition sendNotification (env : Env) (user : Z) (notification : list (string * jsval))
  : M unit :=
  let message := NOTIFICATION notification (generateNotificationId env) (now env) in
  s <- get ;;
  match userSockets s !! user with
  | None => ret tt
  | Some _ =>
      socks <- userSockets_get user ;;
      forEach (elements socks) (λ ws, sendToClient ws message)
  end.

Definition broadcastAnalyticsUpdate (env : Env) (analyticsData : jsval) : M unit :=
  broadcastToRoom "admin-dashboard" (ANALYTICS_UPDATE analyticsData (now env)) None.

(** *** Connection management *)

Definition removeClient (env : Env) (ws : nat) : M unit :=
  s <- get ;;
  match clients s !! ws with
  | None => ret tt
  | Some clientInfo =>
      forEach (elements (ci_rooms clientInfo)) (λ room,
        s <- get ;;
        match rooms s !! room with
        | None => ret tt
        | Some _ =>
            members <- rooms_get room ;;
            modify (set_rooms <[room := members ∖ {[ws]}]>) ;;
            members <- rooms_get room ;;
            if Nat.eqb (size members) 0
            then modify (set_rooms (delete room))
            else
              broadcastToRoom room
                (USER_LEFT (userId clientInfo) (js_of_size members) (now env)) None
        end) ;;
      s <- get ;;
      (match userId clientInfo with
       | Some user =>
           if truthy (userId clientInfo) && bool_decide (is_Some (userSockets s !! user))
           then
             socks <- userSockets_get user ;;
             modify (set_userSockets <[user := socks ∖ {[ws]}]>) ;;
             socks <- userSockets_get user ;;
             if Nat.eqb (size socks) 0
             then modify (set_userSockets (delete user))
             else ret tt
           else ret tt
       | None => ret tt
       end) ;;
      modify (set_clients (delete ws)) ;;
      logger info
  end.

(** The handler of the server's [connection] event. *)
Definition on_connection (env : Env) (ws : nat) (user : option Z) : M unit :=
  logger info ;;
  let clientInfo := mkClientInfo (generateClientId env) user (now env) (now env) ∅ ∅ in
  modify (set_clients <[ws := clientInfo]>) ;;
  (match user with
   | Some u =>
       if truthy user
       then
         s <- get ;;
         (match userSockets s !! u with
          | None => modify (set_userSockets <[u := ∅]>)
          | Some _ => ret tt
          end) ;;
         socks <- userSockets_get u ;;
         modify (set_userSockets <[u := socks ∪ {[ws]}]>)
       else ret tt
   | None => ret tt
   end) ;;
  sendToClient ws (WELCOME (id clientInfo) (now env)) ;;
  set_isAlive ws true.

(** *** Inbound frames *)

(** What [JSON.parse(message)] gives, as far as the handler looks: a
    syntax error, the value [null] (whose [type] cannot be read), an
    envelope of one of the six known types, or anything else. *)
Inductive Frame :=
  | FSyntaxError
  | FNull
  | FJoinRoom (room : string)
  | FLeaveRoom (room : string)
  | FTrackProduct (productId : ProductId)
  | FUntrackProduct (productId : ProductId)
  | FUserTyping (room : string)
  | FHeartbeat
  | FOther.

Definition handleMessage (env : Env) (ws : nat) (message : Frame) : M unit :=
  try_catch
    (match message with
     | FSyntaxError => throw SyntaxError
     | data =>
         s <- get ;;
         match clients s !! ws with
         | None => ret tt
         | Some clientInfo =>
             update_client ws (with_lastActivity (now env)) ;;
             match data with
             | FJoinRoom room => joinRoom env ws room
             | FLeaveRoom room => leaveRoom env ws room
             | FTrackProduct productId => trackProduct env ws productId
             | FUntrackProduct productId => untrackProduct env ws productId
             | FUserTyping room =>
                 broadcastToRoom room (USER_TYPING (userId clientInfo) (now env)) (Some ws)
             | FHeartbeat => sendToClient ws (PONG (now env))
             | FNull => throw TypeError
             | _ => logger warn
             end
         end
     end)
    (λ _, logger error).

(** *** Heartbeat and teardown *)

(** [setInterval(..., 30000)]: the period of the sweep, in milliseconds. *)
Definition sweep_interval : Z := 30000.

(** The body of the [setInterval] callback. *)
Definition heartbeat : M unit :=
  s <- get ;;
  forEach (elements (wss_clients s)) (λ ws,
    s <- get ;;
    if negb (is_alive s ws)
    then ws_terminate ws
    else (set_isAlive ws false ;; ws_ping ws)).

Definition destroy : M unit :=
  s <- get ;;
  (if heartbeatInterval s then modify (set_heartbeatInterval false) else ret tt) ;;
  forEach (elements (wss_clients s)) (λ client, ws_terminate client) ;;
  modify (set_clients (λ _, ∅)) ;;
  modify (set_rooms (λ _, ∅)) ;;
  modify (set_userSockets (λ _, ∅)).

(** *** What can happen to the manager *)

(** The public methods an outside caller may invoke. *)
Inductive Call :=
  | CallJoinRoom (ws : nat) (room : string)
  | CallLeaveRoom (ws : nat) (room : string)
  | CallTrackProduct (ws : nat) (productId : ProductId)
  | CallUntrackProduct (ws : nat) (productId : ProductId)
  | CallBroadcastProductUpdate (productId : ProductId) (updateData : jsval)
  | CallBroadcastStockUpdate (productId : ProductId) (newStock oldStock : jsval)
  | CallBroadcastPriceUpdate (productId : ProductId) (newPrice oldPrice : spec_float)
  | CallBroadcastNewProduct (product : jsval)
  | CallBroadcastUserActivity (user : Z) (activity : jsval)
  | CallSendNotification (user : Z) (notification : list (string * jsval))
  | CallBroadcastAnalyticsUpdate (analyticsData : jsval)
  | CallBroadcast (message : jsval)
  | CallBroadcastToRoom (room : string) (message : jsval) (excludeWs : option nat)
  | CallSendToClient (ws : nat) (message : jsval)
  | CallRemoveClient (ws : nat)
  | CallDestroy.

Definition call (env : Env) (c : Call) : M unit :=
  match c with
  | CallJoinRoom ws room => joinRoom env ws room
  | CallLeaveRoom ws room => leaveRoom env ws room
  | CallTrackProduct ws p => trackProduct env ws p
  | CallUntrackProduct ws p => untrackProduct env ws p
  | CallBroadcastProductUpdate p d => broadcastProductUpdate env p d
  | CallBroadcastStockUpdate p n o => broadcastStockUpdate env p n o
  | CallBroadcastPriceUpdate p n o => broadcastPriceUpdate env p n o
  | CallBroadcastNewProduct p => broadcastNewProduct env p
  | CallBroadcastUserActivity u a => broadcastUserActivity env u a
  | CallSendNotification u n => sendNotification env u n
  | CallBroadcastAnalyticsUpdate d => broadcastAnalyticsUpdate env d
  | CallBroadcast m => broadcast m None
  | CallBroadcastToRoom r m x => broadcastToRoom r m x
  | CallSendToClient ws m => sendToClient ws m
  | CallRemoveClient ws => removeClient env ws
  | CallDestroy => destroy
  end.

(** The events of the run: a completed handshake, an inbound frame, the
    [close], [error] and [pong] events of a connection, a firing of the
    heartbeat timer, a call from outside. *)
Inductive Event :=
  | EvConnection (user : option Z)
  | EvMessage (ws : nat) (message : Frame)
  | EvClose (ws : nat)
  | EvError (ws : nat)
  | EvPong (ws : nat)
  | EvTimer
  | EvCall (c : Call).

(** The [ws] object of a new connection is a new object. *)
Definition new_ws (s : State) : nat := fresh (dom (sockets s)).

(** The server's part in an event, then the handler the manager
    registered for it. A new connection is open and already in
    [wss.clients] when [connection] is emitted; a closed one has left
    [wss.clients] when the manager's [close] handler runs. *)
Definition handle (env : Env) (ev : Event) : M unit :=
  match ev with
  | EvConnection user =>
      s <- get ;;
      let ws := new_ws s in
      modify (set_sockets <[ws := mkSocket OPEN false]>) ;;
      modify (set_wss_clients (λ cs, cs ∪ {[ws]})) ;;
      on_connection env ws user
  | EvMessage ws message => handleMessage env ws message
  | EvClose ws =>
      modify (set_sockets (alter (λ sk, mkSocket CLOSED (isAlive sk)) ws)) ;;
      modify (set_wss_clients (λ cs, cs ∖ {[ws]})) ;;
      removeClient env ws
  | EvError ws => logger error ;; removeClient env ws
  | EvPong ws => set_isAlive ws true
  | EvTimer =>
      s <- get ;;
      if heartbeatInterval s then heartbeat else ret tt
  | EvCall c => call env c
  end.

Definition step (s : State) (ev : Env * Event) : State := exec (handle ev.1 ev.2) s.

Definition run (s : State) (evs : list (Env * Event)) : State := foldl step s evs.

(** *** Analytics *)




End SM.

(** ** Vocabulary of the properties *)

Import JS SM.
Local Open Scope js_scope.

(** The state after some more effects have left the manager. *)
Definition emits (es : list Effect) (s : State) : State :=
  mkState (clients s) (rooms s) (userSockets s) (wss_clients s) (sockets s)
          (heartbeatInterval s) (effects s ++ es).

(** The frames written to one connection, in order. *)
Definition sent_to (ws : nat) (es : list Effect) : list jsval :=
  flat_map (λ e, match e with
                 | Send c data => if Nat.eqb c ws then [data] else []
                 | _ => []
                 end) es.

(** A batch of writes of one text to a list of connections. *)
Definition sends (text : jsval) (targets : list nat) : list Effect :=
  map (λ c, Send c text) targets.

Definition room_targets (s : State) (members : gset nat) (excludeWs : option nat)
  : list nat :=
  List.filter (λ c, is_open s c && negb (is_excluded excludeWs c)) (elements members).


Definition broadcast_targets (s : State)
    (filter : option (gmap nat ClientInfo → nat → bool)) : list nat :=
  List.filter
    (λ c, is_open s c && match filter with None => true | Some f => f (clients s) c end)
              (elements (wss_clients s)).

(** ** Sample runs *)

Definition env0 : Env := mkEnv "2024-05-01T10:00:00.000Z" "1714557600000_k3x9q2m1z".

(** Two connections, the first one of user 7, the second anonymous. *)
Definition two_connected : State :=
  run initial [(env0, EvConnection (Some 7)); (env0, EvConnection None)].

(** Both then join the room "jazz". *)
Definition two_in_room : State :=
  run two_connected [(env0, EvMessage 0 (FJoinRoom "jazz"));
                     (env0, EvMessage 1 (FJoinRoom "jazz"))].

(** A payload [JSON.stringify] rejects. *)
Definition bigint_payload : jsval := JObj [("count", JBigInt 1)].

(** The refresh of [lastActivity] every frame of a registered connection
    starts with. *)
Definition touch (env : Env) (ws : nat) (s : State) : State :=
  set_clients (alter (with_lastActivity (now env)) ws) s.

Definition is_Send (e : Effect) : Prop :=
  match e with Send _ _ => True | _ => False end.

(** An entry of an index after a connection is taken out of it: the
    entry goes with its last connection. *)
Definition without_member (ws : nat) (entry : option (gset nat)) : option (gset nat) :=
  match entry with
  | Some members =>
      if bool_decide (members ∖ {[ws]} = ∅) then None else Some (members ∖ {[ws]})
  | None => None
  end.

(** The room index after a connection has been taken out of the rooms
    listed. *)
Definition leave_all (ws : nat) (names : list string) (index : gmap string (gset nat))
  : gmap string (gset nat) :=
  foldl (λ acc room, partial_alter (without_member ws) room acc) index names.

(** The user index after a connection of the given user is forgotten. *)
Definition forget_socket (ws : nat) (user : option Z) (index : gmap Z (gset nat))
  : gmap Z (gset nat) :=
  match user with
  | Some u => if truthy user then partial_alter (without_member ws) u index else index
  | None => index
  end.

(** ** The cross-index invariant *)

(** A room of the index has at least one member. *)
Definition rooms_nonempty (s : State) : Prop :=
  ∀ r members, rooms s !! r = Some members → members ≠ ∅.

(** A connection in a user's set is in the primary map. *)
Definition user_index_live (s : State) : Prop :=
  ∀ u socks ws, userSockets s !! u = Some socks → ws ∈ socks → is_Some (clients s !! ws).

Definition cross_index_invariant (s : State) : Prop :=
  rooms_nonempty s ∧ user_index_live s.

(** What the operations maintain on top of it: a connection in the set of
    user [u] is registered as a connection of [u], and [u] is truthy; a
    registered connection has a [ws] object. *)
Definition user_index_exact (s : State) : Prop :=
  ∀ u socks ws, userSockets s !! u = Some socks → ws ∈ socks →
    ∃ ci, clients s !! ws = Some ci ∧ userId ci = Some u ∧ truthy (Some u) = true.

Definition clients_have_sockets (s : State) : Prop :=
  ∀ ws, is_Some (clients s !! ws) → is_Some (sockets s !! ws).

Definition registry_inv (s : State) : Prop :=
  rooms_nonempty s ∧ user_index_exact s ∧ clients_have_sockets s.

(** A method respects a relation between states when every call, whether
    it returns or throws, leaves a state related to the one it found. *)
Definition respects (R : State → State → Prop) {A} (m : M A) : Prop :=
  ∀ s, R s (exec m s).

(** The three indexes are the same and no [ws] object has appeared or
    gone. *)
Definition same_indexes (s s' : State) : Prop :=
  clients s' = clients s ∧ rooms s' = rooms s ∧ userSockets s' = userSockets s
  ∧ dom (sockets s') = dom (sockets s).

(** The step from [s] to [s'] keeps the invariant. *)
Definition keeps_inv (s s' : State) : Prop := registry_inv s → registry_inv s'.

(** The user index after a connection of the given user is recorded. *)
Definition remember_socket (ws : nat) (user : option Z) (index : gmap Z (gset nat))
  : gmap Z (gset nat) :=
  match user with
  | Some u =>
      if truthy user then <[u := default ∅ (index !! u) ∪ {[ws]}]> index else index
  | None => index
  end.

(** ** Vocabulary of the heartbeat *)

(** The effects that left the manager between two states of a run. *)
Definition since (s s' : State) : list Effect := drop (length (effects s)) (effects s').

(** What one sweep does to a [ws] object of [wss.clients] and what it asks
    of the transport. *)
Definition sweep_socket (sk : Socket) : Socket :=
  if isAlive sk then mkSocket (readyState sk) false
  else match readyState sk with
       | CLOSED => sk
       | _ => mkSocket CLOSING (isAlive sk)
       end.

Definition sweep_effect (s : State) (ws : nat) : Effect :=
  if is_alive s ws then Ping ws else Terminate ws.

(** Events that are neither a firing of the timer nor a pong or a close of
    the connection [ws], nor the teardown of the manager. *)
Definition quiet_event (ws : nat) (ev : Env * Event) : Prop :=
  match ev.2 with
  | EvPong c | EvClose c => c ≠ ws
  | EvTimer => False
  | EvCall CallDestroy => False
  | _ => True
  end.

(** Across quiet events the [ws] object of an existing connection keeps
    its fields, the connection stays in [wss.clients], the timer stays
    armed or not as it was, and no termination of it is asked for. *)
Definition undisturbed (ws : nat) (s s' : State) : Prop :=
  is_Some (sockets s !! ws) →
  sockets s' !! ws = sockets s !! ws
  ∧ (ws ∈ wss_clients s → ws ∈ wss_clients s')
  ∧ heartbeatInterval s' = heartbeatInterval s
  ∧ ∃ es, effects s' = effects s ++ es ∧ Terminate ws ∉ es.

(** The liveness flag of an existing connection is not raised. *)
Definition not_revived (ws : nat) (s s' : State) : Prop :=
  is_Some (sockets s !! ws) →
  is_Some (sockets s' !! ws) ∧ (is_alive s' ws = true → is_alive s ws = true).

(** ** Vocabulary of the prices *)

(** [x < 0]; neither a zero of either sign nor NaN is negative. *)
Definition is_negative (x : spec_float) : bool := SFltb x (S754_zero false).

(** A price: a well-formed binary64 value that is not NaN and is not below
    zero. *)
Definition is_price (x : spec_float) : Prop :=
  valid_binary prec emax x = true ∧ SFleb (S754_zero false) x = true.

(** The sign bit of an infinite or non-zero finite value is clear. *)
Definition sign_clear (x : spec_float) : Prop :=
  match x with
  | S754_infinity s | S754_finite s _ _ => s = false
  | _ => True
  end.

(** ** Vocabulary of the disconnect notices *)

(** The USER_LEFT frames [removeClient] writes for one room of the closing
    connection: none when the room is unknown or is left empty. *)
Definition user_left_notices (env : Env) (ws : nat) (user : option Z) (s : State)
    (room : string) : list Effect :=
  match rooms s !! room with
  | Some members =>
      if bool_decide (members ∖ {[ws]} = ∅) then []
      else sends (USER_LEFT user (js_of_size (members ∖ {[ws]})) (now env))
                 (room_targets s (members ∖ {[ws]}) None)
  | None => []
  end.

(** ** Vocabulary of the teardown *)

(** What [ws.terminate()] leaves of a [ws] object. *)
Definition terminated (sk : Socket) : Socket :=
  match readyState sk with
  | CLOSED => sk
  | _ => mkSocket CLOSING (isAlive sk)
  end.

(** ** The agreement of the indexes *)

(** A member of a room is a registered connection whose room set holds the
    room. *)
Definition members_registered (s : State) : Prop :=
  ∀ r members ws, rooms s !! r = Some members → ws ∈ members →
    ∃ ci, clients s !! ws = Some ci ∧ r ∈ ci_rooms ci.

(** A room in a connection's room set is in the index and has the
    connection as a member. *)
Definition memberships_indexed (s : State) : Prop :=
  ∀ ws ci r, clients s !! ws = Some ci → r ∈ ci_rooms ci →
    ∃ members, rooms s !! r = Some members ∧ ws ∈ members.

(** A registered connection with a truthy user identifier is in its
    user's set. *)
Definition users_indexed (s : State) : Prop :=
  ∀ ws ci u, clients s !! ws = Some ci → userId ci = Some u → u ≠ 0 →
    ∃ socks, userSockets s !! u = Some socks ∧ ws ∈ socks.

(** A user's set in the index has a connection. *)
Definition user_entries_nonempty (s : State) : Prop :=
  ∀ u socks, userSockets s !! u = Some socks → socks ≠ ∅.

(** A registered connection is in [wss.clients]. *)
Definition clients_in_wss (s : State) : Prop :=
  ∀ ws, is_Some (clients s !! ws) → ws ∈ wss_clients s.

Definition index_inv (s : State) : Prop :=
  registry_inv s ∧ members_registered s ∧ memberships_indexed s
  ∧ users_indexed s ∧ user_entries_nonempty s.

Definition keeps_index (s s' : State) : Prop := index_inv s → index_inv s'.

(** No connection is registered anew and none leaves [wss.clients]. *)
Definition covers (s s' : State) : Prop :=
  dom (clients s') ⊆ dom (clients s) ∧ wss_clients s ⊆ wss_clients s'.

Local Close Scope Z_scope.
#[local] Set Warnings "-clear-no-such-hyp".

(** ** The monad and the loops *)

Section Monad.

Lemma emits_nil s : emits [] s = s.
Proof. destruct s; unfold emits; simpl. by rewrite app_nil_r. Qed.

Lemma emits_emits es1 es2 s : emits es2 (emits es1 s) = emits (es1 ++ es2) s.
Proof. unfold emits; simpl. by rewrite app_assoc. Qed.

Lemma emit_emits e s : emit e s = emits [e] s.
Proof. reflexivity. Qed.

Lemma is_open_emits es s c : is_open (emits es s) c = is_open s c.
Proof. reflexivity. Qed.

(** A loop whose body writes one text to the connections that pass a
    test on the [ws] objects. *)
Lemma forEach_sends (P : State → nat → bool) (text : jsval) (l : list nat) (s : State) :
  (∀ es s c, P (emits es s) c = P s c) →
  forEach l (λ c, s <- get ;; if P s c then ws_send c text else ret tt) s
  = (Normal tt, emits (sends text (List.filter (P s) l)) s).
Proof.
  intros HP. revert s. induction l as [|c l IH]; intros s; simpl.
  - by rewrite emits_nil.
  - unfold bind at 1, get at 1. unfold bind at 1. simpl.
    destruct (P s c) eqn:Hc; simpl.
    + unfold ws_send, modify. rewrite emit_emits. rewrite IH.
      rewrite emits_emits. simpl.
      f_equal. f_equal. f_equal. f_equal. apply List.filter_ext. intros a. apply HP.
    + apply IH.
Qed.

Lemma run_get {B} (k : State → M B) s : bind get k s = k s s.
Proof. reflexivity. Qed.

Lemma run_modify {B} f (k : unit → M B) s : bind (modify f) k s = k tt (f s).
Proof. reflexivity. Qed.

Lemma run_ret {A B} (a : A) (k : A → M B) s : bind (ret a) k s = k a s.
Proof. reflexivity. Qed.

Lemma run_normal {A B} (m : M A) (k : A → M B) s a s' :
  m s = (Normal a, s') → bind m k s = k a s'.
Proof. intros H. unfold bind. by rewrite H. Qed.

Lemma run_thrown {A B} (m : M A) (k : A → M B) s e s' :
  m s = (Thrown e, s') → bind m k s = (Thrown e, s').
Proof. intros H. unfold bind. by rewrite H. Qed.

Lemma run_assoc {A B C} (m : M A) (f : A → M B) (k : B → M C) s :
  bind (bind m f) k s = bind m (λ x, bind (f x) k) s.
Proof. unfold bind. by destruct (m s) as [[a|e] s']. Qed.

Lemma rooms_get_eq r s members :
  rooms s !! r = Some members → rooms_get r s = (Normal members, s).
Proof. intros H. unfold rooms_get. by rewrite run_get, H. Qed.

Lemma userSockets_get_eq u s socks :
  userSockets s !! u = Some socks → userSockets_get u s = (Normal socks, s).
Proof. intros H. unfold userSockets_get. by rewrite run_get, H. Qed.

Lemma size_zero_iff (X : gset nat) : Nat.eqb (size X) 0 = bool_decide (X = ∅).
Proof.
  destruct (Nat.eqb_spec (size X) 0) as [H|H].
  - apply size_empty_iff in H. symmetry. apply bool_decide_eq_true. by apply leibniz_equiv.
  - symmetry. apply bool_decide_eq_false. intros ->. by rewrite size_empty in H.
Qed.

Lemma forEach_ext {A} (f g : A → M unit) (l : list A) :
  (∀ x s, f x s = g x s) → ∀ s, forEach l f s = forEach l g s.
Proof.
  intros Hfg. induction l as [|x l IH]; intros s; simpl; [done|].
  unfold bind. rewrite Hfg. destruct (g x s) as [[[]|e] s']; [apply IH|done].
Qed.

End Monad.

(** ** The send and broadcast primitives *)

Section Primitives.


Lemma sent_to_sends_notin c text l : c ∉ l → sent_to c (sends text l) = [].
Proof.
  induction l as [|x l IH]; intros Hc; simpl; [done|].
  apply not_elem_of_cons in Hc as [Hne Hc].
  destruct (Nat.eqb_spec x c); [congruence|]. simpl. by apply IH.
Qed.

Lemma sent_to_sends_nodup c text l :
  NoDup l → sent_to c (sends text l) = if bool_decide (c ∈ l) then [text] else [].
Proof.
  intros Hnd. induction Hnd as [|x l Hx Hl IH]; simpl.
  - done.
  - destruct (Nat.eqb_spec x c) as [->|Hne]; simpl.
    + rewrite bool_decide_eq_true_2 by left.
      by rewrite sent_to_sends_notin.
    + rewrite IH. rewrite (bool_decide_ext (c ∈ x :: l) (c ∈ l)); [done|].
      rewrite elem_of_cons. intuition congruence.
Qed.

Lemma NoDup_List_filter {A} (P : A → bool) (l : list A) : NoDup l → NoDup (List.filter P l).
Proof.
  intros Hnd. induction Hnd as [|x l Hx Hl IH]; simpl; [constructor|].
  destruct (P x); [|done]. constructor; [|done].
  rewrite list_elem_of_In, filter_In, <- list_elem_of_In. tauto.
Qed.

Lemma elem_of_List_filter {A} (P : A → bool) (l : list A) x :
  x ∈ List.filter P l ↔ x ∈ l ∧ P x = true.
Proof. by rewrite !list_elem_of_In, filter_In. Qed.

(** Exactly one frame for each target that passes the test, none for
    anyone else. *)
Lemma sent_to_filtered (X : gset nat) (P : nat → bool) text c :
  sent_to c (sends text (List.filter P (elements X)))
  = if bool_decide (c ∈ X) && P c then [text] else [].
Proof.
  rewrite sent_to_sends_nodup by apply NoDup_List_filter, NoDup_elements.
  destruct (bool_decide (c ∈ X)) eqn:HX, (P c) eqn:HP; simpl.
  - rewrite bool_decide_eq_true_2; [done|].
    apply elem_of_List_filter. split; [|done].
    apply elem_of_elements. by apply bool_decide_eq_true in HX.
  - rewrite bool_decide_eq_false_2; [done|].
    rewrite elem_of_List_filter. intros [_ ?]. congruence.
  - rewrite bool_decide_eq_false_2; [done|].
    rewrite elem_of_List_filter, elem_of_elements. intros [? _].
    by apply bool_decide_eq_false in HX.
  - rewrite bool_decide_eq_false_2; [done|].
    rewrite elem_of_List_filter. intros [_ ?]. congruence.
Qed.

Lemma sendToClient_closed ws msg s :
  is_open s ws = false → sendToClient ws msg s = (Normal tt, s).
Proof. intros H. unfold sendToClient, bind, get. simpl. by rewrite H. Qed.

Lemma sendToClient_open ws msg s :
  is_open s ws = true → serialisable msg = true →
  sendToClient ws msg s = (Normal tt, emits [Send ws msg] s).
Proof.
  intros H Hs. unfold sendToClient, bind, get, JSON_stringify. simpl.
  by rewrite H, Hs.
Qed.

Lemma sendToClient_throws ws msg s :
  is_open s ws = true → serialisable msg = false →
  sendToClient ws msg s = (Thrown TypeError, s).
Proof.
  intros H Hs. unfold sendToClient, bind, get, JSON_stringify. simpl.
  by rewrite H, Hs.
Qed.

Lemma sendToClient_eq ws msg s :
  serialisable msg = true →
  sendToClient ws msg s = (Normal tt, emits (if is_open s ws then [Send ws msg] else []) s).
Proof.
  intros Hs. destruct (is_open s ws) eqn:H.
  - by apply sendToClient_open.
  - rewrite emits_nil. by apply sendToClient_closed.
Qed.

Lemma broadcastToRoom_absent r msg ex s :
  rooms s !! r = None → broadcastToRoom r msg ex s = (Normal tt, s).
Proof. intros H. unfold broadcastToRoom, bind, get. simpl. by rewrite H. Qed.

Lemma broadcastToRoom_eq r msg ex s members :
  rooms s !! r = Some members → serialisable msg = true →
  broadcastToRoom r msg ex s = (Normal tt, emits (sends msg (room_targets s members ex)) s).
Proof.
  intros H Hs. unfold broadcastToRoom, bind at 1, get at 1. simpl. rewrite H.
  unfold bind at 1, JSON_stringify. rewrite Hs. simpl.
  apply (forEach_sends (λ s c, is_open s c && negb (is_excluded ex c))).
  done.
Qed.

Lemma broadcastToRoom_throws r msg ex s members :
  rooms s !! r = Some members → serialisable msg = false →
  broadcastToRoom r msg ex s = (Thrown TypeError, s).
Proof.
  intros H Hs. unfold broadcastToRoom, bind at 1, get at 1. simpl. rewrite H.
  unfold bind at 1, JSON_stringify. by rewrite Hs.
Qed.

Lemma broadcast_eq msg filter s :
  serialisable msg = true →
  broadcast msg filter s = (Normal tt, emits (sends msg (broadcast_targets s filter)) s).
Proof.
  intros Hs. unfold broadcast, bind at 1, JSON_stringify. rewrite Hs. simpl.
  unfold bind at 1, get at 1. simpl.
  set (P := λ (s : State) (c : nat),
    is_open s c && match filter with None => true | Some f => f (clients s) c end).
  rewrite (forEach_ext _ (λ c, s <- get ;; if P s c then ws_send c msg else ret tt)).
  - by apply forEach_sends.
  - intros c s'. unfold bind, get, P. simpl. by destruct (is_open s' c).
Qed.

Lemma broadcast_throws msg filter s :
  serialisable msg = false → broadcast msg filter s = (Thrown TypeError, s).
Proof. intros Hs. unfold broadcast, bind at 1, JSON_stringify. by rewrite Hs. Qed.

End Primitives.

(** ** Room broadcast *)



(** ** Per-user send *)

Lemma serialisable_set_field k v fields :
  serialisable v = true → serialisable (JObj fields) = true →
  serialisable (JObj (set_field k v fields)) = true.
Proof.
  intros Hv. simpl. induction fields as [|[k' v'] rest IH]; simpl.
  - by rewrite Hv.
  - intros [H1 H2]%andb_true_iff. destruct (String.eqb k k'); simpl.
    + by rewrite Hv, H2.
    + by rewrite H1, IH.
Qed.

Lemma serialisable_NOTIFICATION n nid ts :
  serialisable (JObj n) = true → serialisable (NOTIFICATION n nid ts) = true.
Proof.
  intros Hn. unfold NOTIFICATION.
  assert (H := serialisable_set_field "timestamp" (JStr ts) _ eq_refl
                 (serialisable_set_field "id" (JStr nid) _ eq_refl Hn)).
  simpl in *. by rewrite H.
Qed.

Lemma forEach_sendToClient msg l s :
  serialisable msg = true →
  forEach l (λ ws, sendToClient ws msg) s
  = (Normal tt, emits (sends msg (List.filter (is_open s) l)) s).
Proof.
  intros Hs.
  rewrite (forEach_ext _ (λ c, s <- get ;; if is_open s c then ws_send c msg else ret tt)).
  - by apply (forEach_sends is_open).
  - intros c s'. unfold sendToClient, bind, get, JSON_stringify. simpl.
    rewrite Hs. by destruct (is_open s' c).
Qed.



(** ** Typing notices *)

Lemma serialisable_js_of_userId u : serialisable (js_of_userId u) = true.
Proof. by destruct u. Qed.




(** ** Errors in the send and broadcast primitives *)

(** C6, as stated, fails: none of the three primitives catches anything.
    A message [JSON.stringify] rejects makes each of them throw to its
    caller, and the two broadcasts then write to no connection at all. *)
Lemma send_primitives_throw :
  sendToClient 0 bigint_payload two_connected = (Thrown TypeError, two_connected)
  ∧ broadcast bigint_payload None two_connected = (Thrown TypeError, two_connected)
  ∧ broadcastToRoom "jazz" bigint_payload None two_in_room
    = (Thrown TypeError, two_in_room).
Proof. repeat split; reflexivity. Qed.

(** C6, amended. With a message [JSON.stringify] accepts, each primitive
    returns normally, writes once to every open target and passes over a
    target that is not open; a target that is not open, or a room that
    does not exist, never makes a primitive throw, whatever the message.
    With a message [JSON.stringify] rejects, its [TypeError] reaches the
    caller: of [broadcast] always, of [broadcastToRoom] when the room
    exists, of [sendToClient] when the target is open. *)
Theorem send_primitives_outcome (s : State) (msg : jsval) :
  (serialisable msg = true →
     (∀ ws, sendToClient ws msg s
            = (Normal tt, emits (if is_open s ws then [Send ws msg] else []) s))
     ∧ (∀ filter,
          broadcast msg filter s
            = (Normal tt, emits (sends msg (broadcast_targets s filter)) s)
          ∧ ∀ c, sent_to c (sends msg (broadcast_targets s filter))
                 = if bool_decide (c ∈ wss_clients s)
                      && (is_open s c
                          && match filter with None => true | Some f => f (clients s) c end)
                   then [msg] else [])
     ∧ (∀ r ex members, rooms s !! r = Some members →
          broadcastToRoom r msg ex s
            = (Normal tt, emits (sends msg (room_targets s members ex)) s)))
  ∧ (∀ ws, is_open s ws = false → sendToClient ws msg s = (Normal tt, s))
  ∧ (∀ r ex, rooms s !! r = None → broadcastToRoom r msg ex s = (Normal tt, s))
  ∧ (serialisable msg = false →
     (∀ ws, is_open s ws = true → sendToClient ws msg s = (Thrown TypeError, s))
     ∧ (∀ filter, broadcast msg filter s = (Thrown TypeError, s))
     ∧ (∀ r ex members, rooms s !! r = Some members →
          broadcastToRoom r msg ex s = (Thrown TypeError, s))).
Proof.
  split; [|split; [|split]].
  - intros Hs. split; [|split].
    + intros ws. by apply sendToClient_eq.
    + intros filter. split; [by apply broadcast_eq|].
      intros c. apply sent_to_filtered.
    + intros r ex members Hr. by apply broadcastToRoom_eq.
  - intros ws. apply sendToClient_closed.
  - intros r ex. apply broadcastToRoom_absent.
  - intros Hs. split; [|split].
    + intros ws Ho. by apply sendToClient_throws.
    + intros filter. by apply broadcast_throws.
    + intros r ex members Hr. by apply (broadcastToRoom_throws _ _ _ _ members).
Qed.

(** Connection 1 has closed; connection 0 is still open. *)
Lemma send_primitives_outcome_witness :
  let s := set_sockets (alter (λ sk, mkSocket CLOSED (isAlive sk)) 1) two_in_room in
  broadcast (JStr "sale") None s = (Normal tt, emits [Send 0 (JStr "sale")] s)
  ∧ broadcastToRoom "jazz" (JStr "sale") None s = (Normal tt, emits [Send 0 (JStr "sale")] s)
  ∧ sendToClient 1 bigint_payload s = (Normal tt, s).
Proof.
  intros s.
  pose proof (send_primitives_outcome s (JStr "sale")) as [H _].
  destruct (H eq_refl) as (_ & Hb & Hr).
  split; [exact (proj1 (Hb None))|].
  split; [exact (Hr "jazz" None {[0; 1]} eq_refl)|].
  exact (proj1 (proj2 (send_primitives_outcome s bigint_payload)) 1 eq_refl).
Defined.

(** ** Joining and leaving a room *)

Section Rooms.

Lemma serialisable_js_of_size {K} `{Countable K} (X : gset K) :
  serialisable (js_of_size X) = true.
Proof. reflexivity. Qed.

Lemma serialisable_ROOM_JOINED r (X : gset nat) ts :
  serialisable (ROOM_JOINED r (js_of_size X) ts) = true.
Proof. reflexivity. Qed.

Lemma serialisable_USER_JOINED u (X : gset nat) ts :
  serialisable (USER_JOINED u (js_of_size X) ts) = true.
Proof. simpl. by rewrite serialisable_js_of_userId. Qed.

Lemma serialisable_USER_LEFT u (X : gset nat) ts :
  serialisable (USER_LEFT u (js_of_size X) ts) = true.
Proof. simpl. by rewrite serialisable_js_of_userId. Qed.

(** What [joinRoom] does for a registered connection. *)
Lemma joinRoom_eq env ws r s ci :
  clients s !! ws = Some ci →
  let members := default ∅ (rooms s !! r) ∪ {[ws]} in
  joinRoom env ws r s
  = (Normal tt,
     emits ((if is_open s ws
             then [Send ws (ROOM_JOINED r (js_of_size members) (now env))] else [])
            ++ sends (USER_JOINED (userId ci) (js_of_size members) (now env))
                     (room_targets s members (Some ws)))
       (set_clients (alter (with_rooms (λ rs, rs ∪ {[r]})) ws)
          (set_rooms <[r := members]> s))).
Proof.
  intros Hc members. unfold joinRoom. rewrite run_get, Hc.
  assert (Hstep : ∀ s1, clients s1 = clients s → sockets s1 = sockets s →
            rooms s1 !! r = Some (default ∅ (rooms s !! r)) →
            set_rooms <[r := members]> s1 = set_rooms <[r := members]> s →
            (members0 <- rooms_get r ;;
             modify (set_rooms <[r := members0 ∪ {[ws]}]>) ;;
             update_client ws (with_rooms (λ rs, rs ∪ {[r]})) ;;
             members1 <- rooms_get r ;;
             sendToClient ws (ROOM_JOINED r (js_of_size members1) (now env)) ;;
             members2 <- rooms_get r ;;
             broadcastToRoom r (USER_JOINED (userId ci) (js_of_size members2) (now env))
               (Some ws)) s1
            = (Normal tt,
               emits ((if is_open s ws
                       then [Send ws (ROOM_JOINED r (js_of_size members) (now env))] else [])
                      ++ sends (USER_JOINED (userId ci) (js_of_size members) (now env))
                               (room_targets s members (Some ws)))
                 (set_clients (alter (with_rooms (λ rs, rs ∪ {[r]})) ws)
                    (set_rooms <[r := members]> s)))).
  { intros s1 Hcl Hso Hr1 Hset.
    rewrite (run_normal _ _ _ _ _ (rooms_get_eq _ _ _ Hr1)).
    rewrite run_modify. fold members. rewrite Hset.
    unfold update_client. rewrite run_modify.
    set (s2 := set_clients _ _).
    assert (Hr2 : rooms s2 !! r = Some members) by (simpl; apply lookup_insert_eq).
    rewrite (run_normal _ _ _ _ _ (rooms_get_eq _ _ _ Hr2)).
    rewrite (run_normal _ _ _ _ _
               (sendToClient_eq ws _ s2 (serialisable_ROOM_JOINED _ _ _))).
    rewrite (run_normal _ _ (emits _ s2) members (emits _ s2)) by by apply rooms_get_eq.
    rewrite (broadcastToRoom_eq _ _ _ (emits _ s2) members Hr2
               (serialisable_USER_JOINED _ _ _)).
    by rewrite emits_emits. }
  destruct (rooms s !! r) as [m0|] eqn:Hr.
  - rewrite run_ret. apply Hstep; try done.
  - rewrite run_modify. apply Hstep; try done.
    + simpl. apply lookup_insert_eq.
    + unfold set_rooms. simpl. by rewrite insert_insert_eq.
Qed.

Lemma joinRoom_unregistered env ws r s :
  clients s !! ws = None → joinRoom env ws r s = (Normal tt, s).
Proof. intros Hc. unfold joinRoom. by rewrite run_get, Hc. Qed.

(** What [leaveRoom] does for a registered connection and a room of the
    index. *)
Lemma leaveRoom_eq env ws r s ci members :
  clients s !! ws = Some ci → rooms s !! r = Some members →
  leaveRoom env ws r s
  = (Normal tt,
     emits (if is_open s ws then [Send ws (ROOM_LEFT r (now env))] else [])
       (set_clients (alter (with_rooms (λ rs, rs ∖ {[r]})) ws)
          (set_rooms (λ rooms, if bool_decide (members ∖ {[ws]} = ∅)
                               then delete r rooms
                               else <[r := members ∖ {[ws]}]> rooms) s))).
Proof.
  intros Hc Hr. unfold leaveRoom. rewrite run_get, Hc, Hr.
  rewrite (run_normal _ _ _ _ _ (rooms_get_eq _ _ _ Hr)).
  rewrite run_modify. unfold update_client. rewrite run_modify.
  set (s2 := set_clients _ _).
  assert (Hr2 : rooms s2 !! r = Some (members ∖ {[ws]})) by (simpl; apply lookup_insert_eq).
  rewrite (run_normal _ _ _ _ _ (rooms_get_eq _ _ _ Hr2)).
  rewrite size_zero_iff.
  destruct (bool_decide (members ∖ {[ws]} = ∅)) eqn:He.
  - rewrite run_modify. rewrite sendToClient_eq by done.
    unfold s2, set_rooms, set_clients; simpl. by rewrite delete_insert_eq.
  - rewrite run_ret. by rewrite sendToClient_eq.
Qed.

Lemma leaveRoom_no_room env ws r s :
  rooms s !! r = None → leaveRoom env ws r s = (Normal tt, s).
Proof.
  intros Hr. unfold leaveRoom. rewrite run_get, Hr. by destruct (clients s !! ws).
Qed.

Lemma leaveRoom_unregistered env ws r s :
  clients s !! ws = None → leaveRoom env ws r s = (Normal tt, s).
Proof. intros Hc. unfold leaveRoom. by rewrite run_get, Hc. Qed.

End Rooms.

(** ** JOIN_ROOM and LEAVE_ROOM frames *)

Section Frames.

Lemma handleMessage_join env ws r s ci :
  clients s !! ws = Some ci →
  handleMessage env ws (FJoinRoom r) s = joinRoom env ws r (touch env ws s).
Proof.
  intros Hc. unfold handleMessage, try_catch. rewrite run_get, Hc.
  unfold update_client. rewrite run_modify. fold (touch env ws s).
  assert (Hc' : clients (touch env ws s) !! ws = Some (with_lastActivity (now env) ci)).
  { simpl. by rewrite lookup_alter_eq, Hc. }
  by rewrite (joinRoom_eq _ _ _ _ _ Hc').
Qed.

Lemma handleMessage_leave env ws r s ci :
  clients s !! ws = Some ci →
  handleMessage env ws (FLeaveRoom r) s = leaveRoom env ws r (touch env ws s).
Proof.
  intros Hc. unfold handleMessage, try_catch. rewrite run_get, Hc.
  unfold update_client. rewrite run_modify. fold (touch env ws s).
  assert (Hc' : clients (touch env ws s) !! ws = Some (with_lastActivity (now env) ci)).
  { simpl. by rewrite lookup_alter_eq, Hc. }
  destruct (rooms s !! r) as [members|] eqn:Hr.
  - by rewrite (leaveRoom_eq _ _ _ _ _ members Hc').
  - by rewrite leaveRoom_no_room.
Qed.

Lemma with_rooms_id f c : f (ci_rooms c) = ci_rooms c → with_rooms f c = c.
Proof. intros H. destruct c. unfold with_rooms. simpl in *. by rewrite H. Qed.



(** C7, as stated, fails: a LEAVE_ROOM frame for a room name that is not
    in the room index gets no ROOM_LEFT confirmation. Connection 0 is
    registered and open, no room exists; after the frame the only frame
    ever written to it is still the welcome message. *)
Lemma leave_unknown_room_unconfirmed :
  is_Some (clients two_connected !! 0) ∧ is_open two_connected 0 = true
  ∧ handleMessage env0 0 (FLeaveRoom "jazz") two_connected
    = (Normal tt, touch env0 0 two_connected)
  ∧ sent_to 0 (effects (exec (handleMessage env0 0 (FLeaveRoom "jazz")) two_connected))
    = [WELCOME (generateClientId env0) (now env0)].
Proof. repeat split; try reflexivity. by eexists. Qed.

(** C7, amended. For a registered connection and a room name present in
    the room index, a LEAVE_ROOM frame takes the connection out of the
    room's member set and the room out of the connection's room set,
    deletes the room when that leaves it empty, writes ROOM_LEFT to the
    leaving connection if it is open, and writes nothing to anyone else:
    no USER_LEFT. For a room name absent from the index the frame only
    refreshes [lastActivity]. *)
Theorem leave_room_frame (env : Env) (s : State) (ws : nat) (r : string) (ci : ClientInfo) :
  clients s !! ws = Some ci →
  (∀ members, rooms s !! r = Some members →
     ∃ s', handleMessage env ws (FLeaveRoom r) s
             = (Normal tt,
                emits (if is_open s ws then [Send ws (ROOM_LEFT r (now env))] else []) s')
       ∧ rooms s' = (if bool_decide (members ∖ {[ws]} = ∅)
                     then delete r (rooms s) else <[r := members ∖ {[ws]}]> (rooms s))
       ∧ clients s' = <[ws := with_rooms (λ rs, rs ∖ {[r]})
                                (with_lastActivity (now env) ci)]> (clients s)
       ∧ userSockets s' = userSockets s ∧ sockets s' = sockets s
       ∧ effects s' = effects s
       ∧ (∀ c, c ≠ ws →
            sent_to c (if is_open s ws then [Send ws (ROOM_LEFT r (now env))] else []) = []))
  ∧ (rooms s !! r = None →
     handleMessage env ws (FLeaveRoom r) s = (Normal tt, touch env ws s)).
Proof.
  intros Hc. rewrite (handleMessage_leave _ _ _ _ ci Hc).
  assert (Hc' : clients (touch env ws s) !! ws = Some (with_lastActivity (now env) ci)).
  { simpl. by rewrite lookup_alter_eq, Hc. }
  split.
  - intros members Hr. eexists. split; [by apply (leaveRoom_eq _ _ _ _ _ members Hc')|].
    simpl. split; [by destruct (bool_decide _)|].
    split.
    { apply map_eq. intros c. destruct (decide (c = ws)) as [->|Hne].
      - by rewrite !lookup_alter_eq, Hc, lookup_insert_eq.
      - by rewrite !lookup_alter_ne, lookup_insert_ne. }
    repeat split; try done.
    intros c Hne. destruct (is_open s ws); [|done]. simpl.
    destruct (Nat.eqb_spec ws c); [congruence|done].
  - intros Hr. by apply leaveRoom_no_room.
Qed.

Lemma leave_room_frame_witness :
  ∃ s', handleMessage env0 0 (FLeaveRoom "jazz") two_in_room
          = (Normal tt, emits [Send 0 (ROOM_LEFT "jazz" (now env0))] s')
        ∧ rooms s' = <[ "jazz" := {[0; 1]} ∖ {[0]} ]> (rooms two_in_room).
Proof.
  destruct (proj1 (leave_room_frame env0 two_in_room 0 "jazz"
                    (mkClientInfo (generateClientId env0) (Some 7%Z) (now env0) (now env0)
                       {["jazz"]} ∅) eq_refl)
              {[0; 1]} eq_refl) as (s' & H1 & H2 & _).
  exists s'. split; [exact H1|exact H2].
Defined.

End Frames.

(** ** Cleanup on close *)

Section Cleanup.

Lemma partial_alter_without_insert {K} `{Countable K} ws (k : K)
    (index : gmap K (gset nat)) members :
  index !! k = Some members → members ∖ {[ws]} ≠ ∅ →
  <[k := members ∖ {[ws]}]> index = partial_alter (without_member ws) k index.
Proof.
  intros Hk Hne. apply map_eq. intros j. rewrite lookup_partial_alter.
  destruct (decide (k = j)) as [->|Hj].
  - rewrite lookup_insert_eq, Hk. simpl. by rewrite bool_decide_eq_false_2.
  - by rewrite lookup_insert_ne.
Qed.

Lemma partial_alter_without_delete {K} `{Countable K} ws (k : K)
    (index : gmap K (gset nat)) members :
  index !! k = Some members → members ∖ {[ws]} = ∅ →
  delete k index = partial_alter (without_member ws) k index.
Proof.
  intros Hk He. apply map_eq. intros j. rewrite lookup_partial_alter.
  destruct (decide (k = j)) as [->|Hj].
  - rewrite lookup_delete_eq, Hk. simpl. by rewrite bool_decide_eq_true_2.
  - by rewrite lookup_delete_ne.
Qed.

Lemma partial_alter_without_absent {K} `{Countable K} ws (k : K)
    (index : gmap K (gset nat)) :
  index !! k = None → index = partial_alter (without_member ws) k index.
Proof.
  intros Hk. apply map_eq. intros j. rewrite lookup_partial_alter.
  destruct (decide (k = j)) as [->|Hj]; [by rewrite Hk|done].
Qed.

Lemma Forall_is_Send_sends text targets : Forall is_Send (sends text targets).
Proof. induction targets; constructor; done. Qed.

(** One turn of the loop over the rooms of the closing connection. *)
Lemma removeClient_room_step env ws u room s :
  ∃ es,
    (s0 <- get ;;
     match rooms s0 !! room with
     | None => ret tt
     | Some _ =>
         members <- rooms_get room ;;
         modify (set_rooms <[room := members ∖ {[ws]}]>) ;;
         members <- rooms_get room ;;
         if Nat.eqb (size members) 0
         then modify (set_rooms (delete room))
         else broadcastToRoom room (USER_LEFT u (js_of_size members) (now env)) None
     end) s
    = (Normal tt, emits es (set_rooms (partial_alter (without_member ws) room) s))
    ∧ Forall is_Send es.
Proof.
  rewrite run_get. destruct (rooms s !! room) as [members|] eqn:Hr.
  - rewrite (run_normal _ _ _ _ _ (rooms_get_eq _ _ _ Hr)). rewrite run_modify.
    set (s2 := set_rooms _ s).
    assert (Hr2 : rooms s2 !! room = Some (members ∖ {[ws]}))
      by (simpl; apply lookup_insert_eq).
    rewrite (run_normal _ _ _ _ _ (rooms_get_eq _ _ _ Hr2)).
    rewrite size_zero_iff. destruct (bool_decide (members ∖ {[ws]} = ∅)) eqn:He.
    + apply bool_decide_eq_true in He. exists []. split; [|constructor].
      rewrite emits_nil. unfold modify, s2, set_rooms. simpl.
      by rewrite delete_insert_eq, (partial_alter_without_delete ws room _ members).
    + apply bool_decide_eq_false in He. eexists. split; [|apply Forall_is_Send_sends].
      rewrite (broadcastToRoom_eq _ _ _ s2 _ Hr2 (serialisable_USER_LEFT _ _ _)).
      unfold s2, set_rooms. simpl.
      by rewrite (partial_alter_without_insert ws room _ members).
  - exists []. split; [|constructor]. rewrite emits_nil.
    unfold ret, set_rooms. rewrite <- partial_alter_without_absent by done.
    by destruct s.
Qed.

Lemma removeClient_rooms_loop env ws u names s :
  ∃ es,
    forEach names (λ room,
      s0 <- get ;;
      match rooms s0 !! room with
      | None => ret tt
      | Some _ =>
          members <- rooms_get room ;;
          modify (set_rooms <[room := members ∖ {[ws]}]>) ;;
          members <- rooms_get room ;;
          if Nat.eqb (size members) 0
          then modify (set_rooms (delete room))
          else broadcastToRoom room (USER_LEFT u (js_of_size members) (now env)) None
      end) s
    = (Normal tt, emits es (set_rooms (leave_all ws names) s))
    ∧ Forall is_Send es.
Proof.
  revert s. induction names as [|room names IH]; intros s.
  - exists []. split; [|constructor]. simpl. rewrite emits_nil. by destruct s.
  - destruct (removeClient_room_step env ws u room s) as (es1 & H1 & F1).
    cbn [forEach]. rewrite (run_normal _ _ _ _ _ H1).
    destruct (IH (emits es1 (set_rooms (partial_alter (without_member ws) room) s)))
      as (es2 & H2 & F2).
    exists (es1 ++ es2). split; [|by apply Forall_app].
    rewrite H2. by rewrite <- emits_emits.
Qed.

(** What [removeClient] does for a registered connection. *)
Lemma removeClient_eq env ws s ci :
  clients s !! ws = Some ci →
  ∃ es,
    removeClient env ws s
    = (Normal tt,
       emits (es ++ [Log info])
         (set_clients (delete ws)
            (set_userSockets (forget_socket ws (userId ci))
               (set_rooms (leave_all ws (elements (ci_rooms ci))) s))))
    ∧ Forall is_Send es.
Proof.
  intros Hc. unfold removeClient. rewrite run_get, Hc.
  destruct (removeClient_rooms_loop env ws (userId ci) (elements (ci_rooms ci)) s)
    as (es & Hloop & Fes).
  exists es. split; [|done].
  rewrite (run_normal _ _ _ _ _ Hloop). rewrite run_get.
  set (s1 := emits es _).
  assert (Huser : ∀ k : unit → M unit,
    bind (match userId ci with
     | Some user =>
         if truthy (userId ci) && bool_decide (is_Some (userSockets s1 !! user))
         then
           socks <- userSockets_get user ;;
           modify (set_userSockets <[user := socks ∖ {[ws]}]>) ;;
           socks <- userSockets_get user ;;
           if Nat.eqb (size socks) 0
           then modify (set_userSockets (delete user))
           else ret tt
         else ret tt
     | None => ret tt
     end) k s1 = k tt (set_userSockets (forget_socket ws (userId ci)) s1)).
  { intros k. unfold forget_socket. destruct (userId ci) as [u|] eqn:Hu.
    - destruct (truthy (Some u)) eqn:Ht; simpl.
      + destruct (userSockets s !! u) as [socks|] eqn:Hus0;
          pose proof (Hus0 : userSockets s1 !! u = _) as Hus.
        * rewrite bool_decide_eq_true_2 by by eexists.
          rewrite run_assoc.
          rewrite (run_normal _ _ _ _ _ (userSockets_get_eq _ _ _ Hus)).
          rewrite run_assoc, run_modify. set (s2 := set_userSockets _ s1).
          rewrite run_assoc.
          assert (Hus2 : userSockets s2 !! u = Some (socks ∖ {[ws]}))
            by (simpl; apply lookup_insert_eq).
          rewrite (run_normal _ _ _ _ _ (userSockets_get_eq _ _ _ Hus2)).
          rewrite size_zero_iff.
          destruct (bool_decide (socks ∖ {[ws]} = ∅)) eqn:He.
          -- apply bool_decide_eq_true in He. rewrite run_modify.
             unfold s2, set_userSockets. simpl.
             by rewrite delete_insert_eq, (partial_alter_without_delete ws u _ socks).
          -- apply bool_decide_eq_false in He. rewrite run_ret.
             unfold s2, set_userSockets. simpl.
             by rewrite (partial_alter_without_insert ws u _ socks).
        * rewrite bool_decide_eq_false_2 by apply is_Some_None.
          rewrite run_ret. unfold set_userSockets.
          rewrite <- partial_alter_without_absent by done. by destruct s1.
      + rewrite run_ret. by destruct s1.
    - rewrite run_ret. by destruct s1. }
  rewrite Huser. rewrite run_modify. unfold logger, modify.
  rewrite emit_emits. unfold s1. simpl. unfold emits, set_clients, set_userSockets, set_rooms.
  simpl. by rewrite app_assoc.
Qed.

Lemma removeClient_unregistered env ws s :
  clients s !! ws = None → removeClient env ws s = (Normal tt, s).
Proof. intros Hc. unfold removeClient. by rewrite run_get, Hc. Qed.

(** C2. [removeClient] always returns normally and leaves the connection
    out of the primary map; called for a connection that is not in the
    primary map, and so called a second time for the same connection, it
    returns at once with the whole state as it was: no room and no user
    entry is touched again. *)
Theorem removeClient_twice (env env' : Env) (s : State) (ws : nat) :
  (∃ s1, removeClient env ws s = (Normal tt, s1)
         ∧ clients s1 !! ws = None
         ∧ removeClient env' ws s1 = (Normal tt, s1))
  ∧ (clients s !! ws = None → removeClient env ws s = (Normal tt, s)).
Proof.
  split; [|apply removeClient_unregistered].
  destruct (clients s !! ws) as [ci|] eqn:Hc.
  - destruct (removeClient_eq env ws s ci Hc) as (es & -> & _).
    eexists. split; [done|].
    assert (Hgone : clients (emits (es ++ [Log info])
              (set_clients (delete ws)
                 (set_userSockets (forget_socket ws (userId ci))
                    (set_rooms (leave_all ws (elements (ci_rooms ci))) s)))) !! ws = None)
      by (simpl; apply lookup_delete_eq).
    split; [done|]. by apply removeClient_unregistered.
  - exists s. rewrite !removeClient_unregistered by done. done.
Qed.

Lemma removeClient_twice_witness :
  let s1 := exec (removeClient env0 0) two_in_room in
  clients s1 !! 0 = None ∧ removeClient env0 0 s1 = (Normal tt, s1).
Proof.
  intros s1. split; [reflexivity|].
  exact (proj2 (removeClient_twice env0 env0 s1 0) eq_refl).
Defined.

End Cleanup.

(** ** Methods that respect a relation *)

Section Respects.
Context (R : State → State → Prop) `{!PreOrder R}.

Lemma respects_ret {A} (a : A) : respects R (ret a).
Proof. intros s. reflexivity. Qed.

Lemma respects_get : respects R get.
Proof. intros s. reflexivity. Qed.

Lemma respects_throw {A} e : respects R (throw (A:=A) e).
Proof. intros s. reflexivity. Qed.

Lemma respects_modify f : (∀ s, R s (f s)) → respects R (modify f).
Proof. intros Hf s. apply Hf. Qed.

Lemma respects_bind {A B} (m : M A) (k : A → M B) :
  respects R m → (∀ a, respects R (k a)) → respects R (bind m k).
Proof.
  intros Hm Hk s. specialize (Hm s). unfold exec, bind in *.
  destruct (m s) as [[a|e] s']; simpl in *; [|done].
  etrans; [done|]. apply Hk.
Qed.

Lemma respects_try_catch body handler :
  respects R body → (∀ e, respects R (handler e)) → respects R (try_catch body handler).
Proof.
  intros Hm Hk s. specialize (Hm s). unfold exec, try_catch in *.
  destruct (body s) as [[a|e] s']; simpl in *; [done|].
  etrans; [done|]. apply Hk.
Qed.

Lemma respects_forEach {A} (l : list A) (f : A → M unit) :
  (∀ x, respects R (f x)) → respects R (forEach l f).
Proof.
  intros Hf. induction l as [|x l IH]; simpl.
  - apply respects_ret.
  - apply respects_bind; [apply Hf|done].
Qed.

Lemma respects_JSON_stringify v : respects R (JSON_stringify v).
Proof.
  unfold JSON_stringify. destruct (serialisable v);
    [apply respects_ret|apply respects_throw].
Qed.

Lemma respects_rooms_get r : respects R (rooms_get r).
Proof.
  unfold rooms_get. apply respects_bind; [apply respects_get|].
  intros s. destruct (rooms s !! r); [apply respects_ret|apply respects_throw].
Qed.

Lemma respects_userSockets_get u : respects R (userSockets_get u).
Proof.
  unfold userSockets_get. apply respects_bind; [apply respects_get|].
  intros s. destruct (userSockets s !! u); [apply respects_ret|apply respects_throw].
Qed.
End Respects.

(** Breaks a method down to its [modify] steps. *)
Ltac respects_with leaf :=
  repeat first
    [ leaf
    | lazymatch goal with
      | |- respects _ (ret _) => apply respects_ret; apply _
      | |- respects _ get => apply respects_get; apply _
      | |- respects _ (throw _) => apply respects_throw; apply _
      | |- respects _ (JSON_stringify _) => apply respects_JSON_stringify; apply _
      | |- respects _ (rooms_get _) => apply respects_rooms_get; apply _
      | |- respects _ (userSockets_get _) => apply respects_userSockets_get; apply _
      | |- respects _ (bind _ _) => apply respects_bind; [apply _| |intros ?]
      | |- respects _ (forEach _ _) => apply respects_forEach; [apply _|intros ?]
      | |- respects _ (try_catch _ _) => apply respects_try_catch; [apply _| |intros ?]
      | |- respects _ (match ?x with _ => _ end) => destruct x
      | |- respects _ (ws_send _ _) => unfold ws_send
      | |- respects _ (ws_ping _) => unfold ws_ping
      | |- respects _ (ws_terminate _) => unfold ws_terminate
      | |- respects _ (set_isAlive _ _) => unfold set_isAlive
      | |- respects _ (logger _) => unfold logger
      | |- respects _ (update_client _ _) => unfold update_client
      end ].

#[local] Instance same_indexes_preorder : PreOrder same_indexes.
Proof.
  split.
  - by intros s.
  - intros s1 s2 s3 (?&?&?&?) (?&?&?&?). repeat split; congruence.
Qed.

Lemma same_indexes_emit e s : same_indexes s (emit e s).
Proof. done. Qed.

Lemma same_indexes_alter_socket f ws s : same_indexes s (set_sockets (alter f ws) s).
Proof. repeat split. simpl. apply dom_alter_L. Qed.

Lemma same_indexes_heartbeatInterval b s : same_indexes s (set_heartbeatInterval b s).
Proof. done. Qed.

Lemma same_indexes_wss_clients f s : same_indexes s (set_wss_clients f s).
Proof. done. Qed.


(** ** The invariant along the run *)

#[local] Instance keeps_inv_preorder : PreOrder keeps_inv.
Proof. split; unfold keeps_inv; [intros s; tauto|intros s1 s2 s3; tauto]. Qed.

Section Invariant.

Lemma registry_inv_same_indexes s s' : same_indexes s s' → keeps_inv s s'.
Proof.
  intros (Hc & Hr & Hu & Hd) (I1 & I2 & I3). unfold registry_inv, rooms_nonempty,
    user_index_exact, clients_have_sockets. rewrite Hc, Hr, Hu.
  repeat split; [done|done|].
  intros ws Hws. apply elem_of_dom. rewrite Hd. apply elem_of_dom. by apply I3.
Qed.

Lemma respects_same_indexes_inv {A} (m : M A) :
  respects same_indexes m → respects keeps_inv m.
Proof. intros H s. apply registry_inv_same_indexes, H. Qed.

Ltac same_indexes_steps :=
  respects_with ltac:(
    idtac; lazymatch goal with
    | |- respects _ (modify _) =>
        apply respects_modify; intros ?;
        first [ apply same_indexes_emit | apply same_indexes_alter_socket
              | apply same_indexes_heartbeatInterval | apply same_indexes_wss_clients ]
    end).

Lemma same_indexes_sendToClient ws msg : respects same_indexes (sendToClient ws msg).
Proof. unfold sendToClient, ws_send. same_indexes_steps. Qed.

Lemma same_indexes_broadcast msg filter : respects same_indexes (broadcast msg filter).
Proof. unfold broadcast, ws_send. same_indexes_steps. Qed.

Lemma same_indexes_broadcastToRoom r msg ex :
  respects same_indexes (broadcastToRoom r msg ex).
Proof. unfold broadcastToRoom, ws_send. same_indexes_steps. Qed.

Lemma same_indexes_sendNotification env u n :
  respects same_indexes (sendNotification env u n).
Proof.
  unfold sendNotification, sendToClient. same_indexes_steps.
Qed.

Lemma same_indexes_set_isAlive ws b : respects same_indexes (set_isAlive ws b).
Proof. unfold set_isAlive. same_indexes_steps. Qed.

Lemma same_indexes_ws_terminate ws : respects same_indexes (ws_terminate ws).
Proof. unfold ws_terminate. same_indexes_steps. Qed.

Lemma same_indexes_logger lvl : respects same_indexes (logger lvl).
Proof. unfold logger. same_indexes_steps. Qed.

Lemma same_indexes_heartbeat : respects same_indexes heartbeat.
Proof.
  unfold heartbeat, ws_ping. same_indexes_steps.
Qed.

Lemma inv_alter_client f ws s :
  (∀ c, userId (f c) = userId c) → keeps_inv s (set_clients (alter f ws) s).
Proof.
  intros Hf (I1 & I2 & I3). repeat split.
  - done.
  - intros u socks c Hu Hc. destruct (I2 u socks c Hu Hc) as (ci & Hci & Hid & Ht).
    simpl. destruct (decide (ws = c)) as [->|Hne].
    + exists (f ci). rewrite lookup_alter_eq, Hci. by rewrite Hf.
    + exists ci. by rewrite lookup_alter_ne.
  - intros c Hc. apply I3. simpl in Hc. by rewrite lookup_alter_is_Some in Hc.
Qed.

Lemma inv_set_rooms g s :
  (∀ r members, g (rooms s) !! r = Some members → members ≠ ∅) →
  keeps_inv s (set_rooms g s).
Proof. intros Hg (I1 & I2 & I3). by repeat split. Qed.

Lemma keeps_inv_update_client ws f :
  (∀ c, userId (f c) = userId c) → respects keeps_inv (update_client ws f).
Proof. intros Hf s. by apply inv_alter_client. Qed.

Lemma keeps_inv_joinRoom env ws r : respects keeps_inv (joinRoom env ws r).
Proof.
  intros s Hinv. unfold exec. destruct (clients s !! ws) as [ci|] eqn:Hc.
  - rewrite (joinRoom_eq _ _ _ _ _ Hc). simpl.
    apply (inv_alter_client _ ws (set_rooms _ s)); [done|].
    apply inv_set_rooms; [|done].
    intros r' members. rewrite lookup_insert. case_decide.
    + intros [= <-]. set_solver.
    + apply Hinv.
  - by rewrite joinRoom_unregistered.
Qed.

Lemma keeps_inv_leaveRoom env ws r : respects keeps_inv (leaveRoom env ws r).
Proof.
  intros s Hinv. unfold exec. destruct (clients s !! ws) as [ci|] eqn:Hc.
  - destruct (rooms s !! r) as [members|] eqn:Hr.
    + rewrite (leaveRoom_eq _ _ _ _ _ _ Hc Hr). simpl.
      apply (inv_alter_client _ ws (set_rooms _ s)); [done|].
      apply inv_set_rooms; [|done].
      intros r' members'. destruct (bool_decide (members ∖ {[ws]} = ∅)) eqn:He.
      * rewrite lookup_delete. destruct (decide (r = r')); [by intros [=]|]. apply Hinv.
      * apply bool_decide_eq_false in He. rewrite lookup_insert. case_decide.
        -- by intros [= <-].
        -- apply Hinv.
    + by rewrite leaveRoom_no_room.
  - by rewrite leaveRoom_unregistered.
Qed.

Ltac keeps_inv_steps :=
  respects_with ltac:(
    idtac; lazymatch goal with
    | |- respects _ (update_client _ _) => by apply keeps_inv_update_client
    | |- respects _ (sendToClient _ _) =>
        apply respects_same_indexes_inv, same_indexes_sendToClient
    | |- respects _ (broadcast _ _) =>
        apply respects_same_indexes_inv, same_indexes_broadcast
    | |- respects _ (broadcastToRoom _ _ _) =>
        apply respects_same_indexes_inv, same_indexes_broadcastToRoom
    | |- respects _ (sendNotification _ _ _) =>
        apply respects_same_indexes_inv, same_indexes_sendNotification
    | |- respects _ (logger _) => apply respects_same_indexes_inv, same_indexes_logger
    | |- respects _ (set_isAlive _ _) =>
        apply respects_same_indexes_inv, same_indexes_set_isAlive
    | |- respects _ heartbeat => apply respects_same_indexes_inv, same_indexes_heartbeat
    | |- respects _ (joinRoom _ _ _) => apply keeps_inv_joinRoom
    | |- respects _ (leaveRoom _ _ _) => apply keeps_inv_leaveRoom
    end).

Lemma keeps_inv_trackProduct env ws p : respects keeps_inv (trackProduct env ws p).
Proof. unfold trackProduct. keeps_inv_steps. Qed.

Lemma keeps_inv_untrackProduct env ws p : respects keeps_inv (untrackProduct env ws p).
Proof. unfold untrackProduct. keeps_inv_steps. Qed.

Lemma rooms_nonempty_leave_all ws names (index : gmap string (gset nat)) :
  (∀ r members, index !! r = Some members → members ≠ ∅) →
  ∀ r members, leave_all ws names index !! r = Some members → members ≠ ∅.
Proof.
  revert index. induction names as [|room names IH]; intros index Hne; [done|].
  simpl. apply IH. intros r members. rewrite lookup_partial_alter. case_decide.
  - destruct (index !! room) as [m|]; simpl; [|done].
    destruct (bool_decide (m ∖ {[ws]} = ∅)) eqn:He; [done|].
    apply bool_decide_eq_false in He. by intros [= <-].
  - apply Hne.
Qed.

Lemma keeps_inv_removeClient env ws : respects keeps_inv (removeClient env ws).
Proof.
  intros s Hinv. unfold exec. destruct (clients s !! ws) as [ci|] eqn:Hc.
  - destruct (removeClient_eq env ws s ci Hc) as (es & -> & _). simpl.
    destruct Hinv as (I1 & I2 & I3). repeat split.
    + intros r members. simpl. by apply rooms_nonempty_leave_all.
    + intros u socks c. simpl. intros Hu Hin.
      assert (Hc' : c ≠ ws ∧ ∃ socks0, userSockets s !! u = Some socks0 ∧ c ∈ socks0).
      { unfold forget_socket in Hu.
        assert (Hstale : ∀ socks0, userSockets s !! u = Some socks0 → c ∈ socks0 →
                  userId ci ≠ Some u → c ≠ ws).
        { intros socks0 H0 Hc0 Hid ->. destruct (I2 _ _ _ H0 Hc0) as (ci' & ? & ? & _).
          congruence. }
        destruct (userId ci) as [u0|] eqn:Hid.
        - destruct (truthy (Some u0)) eqn:Ht.
          + rewrite lookup_partial_alter in Hu. case_decide as Hu0.
            * subst u0. destruct (userSockets s !! u) as [socks0|] eqn:H0; [|done].
              simpl in Hu. destruct (bool_decide _); [done|]. injection Hu as <-.
              split; [set_solver|]. exists socks0. split; [done|set_solver].
            * split; [|by eauto]. apply (Hstale _ Hu Hin). congruence.
          + split; [|by eauto]. apply (Hstale _ Hu Hin).
            intros [= ->]. destruct (I2 _ _ _ Hu Hin) as (? & _ & _ & Ht'). congruence.
        - split; [|by eauto]. by apply (Hstale _ Hu Hin). }
      destruct Hc' as (Hne & socks0 & H0 & Hc0).
      destruct (I2 _ _ _ H0 Hc0) as (ci' & ? & ? & ?).
      exists ci'. by rewrite lookup_delete_ne.
    + intros c. simpl. rewrite lookup_delete_is_Some. intros [_ ?]. by apply I3.
  - by rewrite removeClient_unregistered.
Qed.

Lemma new_ws_fresh s : sockets s !! new_ws s = None.
Proof. apply not_elem_of_dom. unfold new_ws. apply is_fresh. Qed.

(** What a completed handshake does. *)
Lemma connection_eq env user s :
  let ws := new_ws s in
  handle env (EvConnection user) s
  = (Normal tt,
     mkState (<[ws := mkClientInfo (generateClientId env) user (now env) (now env) ∅ ∅]>
                (clients s))
             (rooms s)
             (remember_socket ws user (userSockets s))
             (wss_clients s ∪ {[ws]})
             (<[ws := mkSocket OPEN true]> (sockets s))
             (heartbeatInterval s)
             (effects s ++ [Log info; Send ws (WELCOME (generateClientId env) (now env))])).
Proof.
  intros ws. unfold handle. rewrite run_get. fold ws. rewrite !run_modify.
  unfold on_connection, logger. rewrite !run_modify.
  set (s1 := set_clients _ _).
  assert (Hopen : ∀ s2, sockets s2 = sockets s1 → is_open s2 ws = true).
  { intros s2 Hs2. unfold is_open. rewrite Hs2. simpl. by rewrite lookup_insert_eq. }
  assert (Hrest : ∀ s2, sockets s2 = sockets s1 →
            (sendToClient ws (WELCOME (generateClientId env) (now env)) ;;
             set_isAlive ws true) s2
            = (Normal tt,
               set_sockets (λ _, <[ws := mkSocket OPEN true]> (sockets s))
                 (emits [Send ws (WELCOME (generateClientId env) (now env))] s2))).
  { intros s2 Hs2.
    rewrite (run_normal _ _ _ _ _
               (sendToClient_open ws (WELCOME (generateClientId env) (now env)) s2
                  (Hopen _ Hs2) eq_refl)).
    unfold set_isAlive, modify, set_sockets. simpl. rewrite Hs2. simpl.
    by rewrite alter_insert_eq. }
  unfold remember_socket. destruct user as [u|]; [destruct (truthy (Some u)) eqn:Ht|].
  - rewrite run_assoc, run_get.
    assert (Hadd : ∀ s2, sockets s2 = sockets s1 → clients s2 = clients s1 →
              rooms s2 = rooms s1 → wss_clients s2 = wss_clients s1 →
              heartbeatInterval s2 = heartbeatInterval s1 → effects s2 = effects s1 →
              userSockets s2 !! u = Some (default ∅ (userSockets s !! u)) →
              <[u := default ∅ (userSockets s !! u) ∪ {[ws]}]> (userSockets s2)
                = <[u := default ∅ (userSockets s !! u) ∪ {[ws]}]> (userSockets s) →
              (socks <- userSockets_get u ;;
               modify (set_userSockets <[u := socks ∪ {[ws]}]>)) s2
              = (Normal tt,
                 set_userSockets (λ _, <[u := default ∅ (userSockets s !! u) ∪ {[ws]}]>
                                         (userSockets s)) s1)).
    { intros s2 H1 H2 H3 H4 H5 H6 Hu Hi.
      rewrite (run_normal _ _ _ _ _ (userSockets_get_eq _ _ _ Hu)).
      unfold modify, set_userSockets. rewrite Hi. f_equal. destruct s2; simpl in *.
      by subst. }
    destruct (userSockets s !! u) as [socks|] eqn:Hu;
      pose proof (Hu : userSockets s1 !! u = _) as Hu1; rewrite Hu1.
    + rewrite run_assoc, run_ret.
      rewrite (run_normal _ _ _ _ _ (Hadd s1 eq_refl eq_refl eq_refl eq_refl eq_refl eq_refl
                                       Hu1 eq_refl)).
      rewrite Hrest by done.
      unfold s1, set_sockets, emits, set_userSockets, set_clients, emit, set_wss_clients;
        simpl; by rewrite <- app_assoc.
    + rewrite run_assoc, run_modify.
      set (s2 := set_userSockets _ s1).
      assert (H1 : userSockets s2 !! u = Some (default ∅ None))
        by (simpl; apply lookup_insert_eq).
      assert (H2 : <[u := default ∅ None ∪ {[ws]}]> (userSockets s2)
                   = <[u := default ∅ None ∪ {[ws]}]> (userSockets s))
        by (simpl; apply insert_insert_eq).
      rewrite (run_normal _ _ _ _ _
                 (Hadd s2 eq_refl eq_refl eq_refl eq_refl eq_refl eq_refl H1 H2)).
      rewrite Hrest by done.
      unfold s1, set_sockets, emits, set_userSockets, set_clients, emit, set_wss_clients;
        simpl; by rewrite <- app_assoc.
  - rewrite run_ret. rewrite Hrest by done.
      unfold s1, set_sockets, emits, set_userSockets, set_clients, emit, set_wss_clients;
        simpl; by rewrite <- app_assoc.
  - rewrite run_ret. rewrite Hrest by done.
      unfold s1, set_sockets, emits, set_userSockets, set_clients, emit, set_wss_clients;
        simpl; by rewrite <- app_assoc.
Qed.

Lemma keeps_inv_connection env user : respects keeps_inv (handle env (EvConnection user)).
Proof.
  intros s (I1 & I2 & I3). unfold exec. rewrite connection_eq. simpl.
  pose proof (new_ws_fresh s) as Hfresh.
  assert (Hnew : clients s !! new_ws s = None).
  { destruct (clients s !! new_ws s) eqn:Hc; [|done].
    destruct (I3 (new_ws s)) as [sk Hsk]; [by eexists|congruence]. }
  repeat split.
  - done.
  - intros u socks c. simpl. intros Hu Hc.
    assert (Hold : ∀ socks0, userSockets s !! u = Some socks0 → c ∈ socks0 →
              ∃ ci, <[new_ws s := mkClientInfo (generateClientId env) user (now env)
                                    (now env) ∅ ∅]> (clients s) !! c = Some ci
                    ∧ userId ci = Some u ∧ truthy (Some u) = true).
    { intros socks0 H0 Hc0. destruct (I2 _ _ _ H0 Hc0) as (ci & Hci & ? & ?).
      exists ci. rewrite lookup_insert_ne; [done|]. congruence. }
    unfold remember_socket in Hu.
    destruct user as [u0|]; [destruct (truthy (Some u0)) eqn:Ht|]; [|by eauto..].
    rewrite lookup_insert in Hu. destruct (decide (u0 = u)) as [->|Hne]; [|by eauto].
    injection Hu as <-. apply elem_of_union in Hc as [Hc|Hc].
    + destruct (userSockets s !! u) as [socks0|] eqn:H0; [by eauto|]. set_solver.
    + apply elem_of_singleton in Hc as ->. eexists. by rewrite lookup_insert_eq.
  - intros c. simpl. rewrite !lookup_insert_is_Some'. intros [?|?]; [by left|].
    right. by apply I3.
Qed.

Lemma forEach_ws_terminate l s :
  ∃ s', forEach l (λ c, ws_terminate c) s = (Normal tt, s').
Proof.
  revert s. induction l as [|c l IH]; intros s; simpl; [by eexists|].
  unfold ws_terminate at 1. rewrite run_assoc, run_modify, run_modify. apply IH.
Qed.

Lemma keeps_inv_destroy : respects keeps_inv destroy.
Proof.
  intros s _. unfold exec, destroy. rewrite run_get.
  assert (H : ∀ s1, registry_inv (snd ((
     forEach (elements (wss_clients s)) (λ client, ws_terminate client) ;;
     modify (set_clients (λ _, ∅)) ;;
     modify (set_rooms (λ _, ∅)) ;;
     modify (set_userSockets (λ _, ∅))) s1))).
  { intros s1. destruct (forEach_ws_terminate (elements (wss_clients s)) s1) as (s2 & H2).
    rewrite (run_normal _ _ _ _ _ H2). rewrite !run_modify. simpl.
    repeat split; intros ?; simpl; intros; simplify_map_eq. by destruct H. }
  destruct (heartbeatInterval s); [rewrite run_modify|rewrite run_ret]; apply H.
Qed.

Ltac keeps_inv_all :=
  respects_with ltac:(
    idtac; lazymatch goal with
    | |- respects _ (update_client _ _) => by apply keeps_inv_update_client
    | |- respects _ (sendToClient _ _) =>
        apply respects_same_indexes_inv, same_indexes_sendToClient
    | |- respects _ (broadcast _ _) =>
        apply respects_same_indexes_inv, same_indexes_broadcast
    | |- respects _ (broadcastToRoom _ _ _) =>
        apply respects_same_indexes_inv, same_indexes_broadcastToRoom
    | |- respects _ (sendNotification _ _ _) =>
        apply respects_same_indexes_inv, same_indexes_sendNotification
    | |- respects _ (logger _) => apply respects_same_indexes_inv, same_indexes_logger
    | |- respects _ (set_isAlive _ _) =>
        apply respects_same_indexes_inv, same_indexes_set_isAlive
    | |- respects _ heartbeat => apply respects_same_indexes_inv, same_indexes_heartbeat
    | |- respects _ (modify (set_sockets (alter _ _))) =>
        apply respects_same_indexes_inv, respects_modify; intros ?;
        apply same_indexes_alter_socket
    | |- respects _ (modify (set_wss_clients _)) =>
        apply respects_same_indexes_inv, respects_modify; intros ?;
        apply same_indexes_wss_clients
    | |- respects _ (joinRoom _ _ _) => apply keeps_inv_joinRoom
    | |- respects _ (leaveRoom _ _ _) => apply keeps_inv_leaveRoom
    | |- respects _ (trackProduct _ _ _) => apply keeps_inv_trackProduct
    | |- respects _ (untrackProduct _ _ _) => apply keeps_inv_untrackProduct
    | |- respects _ (removeClient _ _) => apply keeps_inv_removeClient
    | |- respects _ destroy => apply keeps_inv_destroy
    end).

Lemma keeps_inv_handleMessage env ws message :
  respects keeps_inv (handleMessage env ws message).
Proof. unfold handleMessage. keeps_inv_all. Qed.

Lemma keeps_inv_call env c : respects keeps_inv (call env c).
Proof.
  destruct c; simpl;
    unfold broadcastProductUpdate, broadcastStockUpdate, broadcastPriceUpdate,
      broadcastNewProduct, broadcastUserActivity, broadcastAnalyticsUpdate;
    keeps_inv_all.
Qed.

Lemma keeps_inv_handle env ev : respects keeps_inv (handle env ev).
Proof.
  destruct ev; [apply keeps_inv_connection|..]; simpl.
  - apply keeps_inv_handleMessage.
  - keeps_inv_all.
  - keeps_inv_all.
  - keeps_inv_all.
  - keeps_inv_all.
  - apply keeps_inv_call.
Qed.

Lemma registry_inv_initial : registry_inv initial.
Proof. repeat split; intros ?; simpl; intros; simplify_map_eq. by destruct H. Qed.

Lemma registry_inv_run s evs : registry_inv s → registry_inv (run s evs).
Proof.
  revert s. induction evs as [|[env ev] evs IH]; intros s Hs; [done|].
  simpl. apply IH. by apply keeps_inv_handle.
Qed.

Lemma registry_inv_cross_index s : registry_inv s → cross_index_invariant s.
Proof.
  intros (I1 & I2 & _). split; [done|].
  intros u socks ws Hu Hws. destruct (I2 _ _ _ Hu Hws) as (ci & -> & _). by eexists.
Qed.

End Invariant.

(** C1. In every state the manager can reach from its construction,
    whatever handshakes, frames, close, error and pong events, timer
    firings and outside calls led there, each room of the room index has
    a member and each connection in a user's set is in the primary map.
    In particular, when a registered connection [A] joins a room that has
    no other member and then leaves it, the room is gone from the
    index. *)
Theorem cross_index_invariant_reachable :
  (∀ evs, cross_index_invariant (run initial evs))
  ∧ (∀ s env ev, registry_inv s →
       registry_inv (step s (env, ev)) ∧ cross_index_invariant (step s (env, ev)))
  ∧ (∀ env env' s A r ci,
       clients s !! A = Some ci →
       (∀ members, rooms s !! r = Some members → members ⊆ {[A]}) →
       rooms (exec (leaveRoom env' A r) (exec (joinRoom env A r) s)) !! r = None).
Proof.
  split; [|split].
  - intros evs. apply registry_inv_cross_index, registry_inv_run, registry_inv_initial.
  - intros s env ev Hs.
    assert (registry_inv (step s (env, ev))) by by apply keeps_inv_handle.
    split; [done|by apply registry_inv_cross_index].
  - intros env env' s A r ci Hc Honly. unfold exec at 2.
    rewrite (joinRoom_eq _ _ _ _ _ Hc). simpl snd.
    set (members := default ∅ (rooms s !! r) ∪ {[A]}).
    assert (Hm : members = {[A]}).
    { unfold members. destruct (rooms s !! r) as [m|] eqn:Hr; simpl; [|set_solver].
      specialize (Honly m eq_refl). set_solver. }
    set (s1 := emits _ _).
    assert (Hc1 : clients s1 !! A = Some (with_rooms (λ rs, rs ∪ {[r]}) ci)).
    { simpl. by rewrite lookup_alter_eq, Hc. }
    assert (Hr1 : rooms s1 !! r = Some members) by (simpl; apply lookup_insert_eq).
    unfold exec. rewrite (leaveRoom_eq _ _ _ _ _ _ Hc1 Hr1). simpl.
    rewrite bool_decide_eq_true_2 by (rewrite Hm; set_solver).
    apply lookup_delete_eq.
Qed.

Lemma cross_index_invariant_reachable_witness :
  rooms (exec (leaveRoom env0 0 "jazz") (exec (joinRoom env0 0 "jazz") two_connected))
    !! "jazz" = None.
Proof.
  apply (proj2 (proj2 cross_index_invariant_reachable) env0 env0 two_connected 0 "jazz"
           (mkClientInfo (generateClientId env0) (Some 7%Z) (now env0) (now env0) ∅ ∅)
           eq_refl).
  intros members Hm. vm_compute in Hm. discriminate Hm.
Defined.

(** ** The heartbeat *)

Section Heartbeat.

Lemma heartbeat_body ws s :
  (s0 <- get ;;
   if negb (is_alive s0 ws)
   then ws_terminate ws
   else (set_isAlive ws false ;; ws_ping ws)) s
  = (Normal tt, emit (sweep_effect s ws) (set_sockets (alter sweep_socket ws) s)).
Proof.
  rewrite run_get. unfold sweep_effect, is_alive.
  destruct (sockets s !! ws) as [sk|] eqn:Hsk; simpl.
  - destruct (isAlive sk) eqn:Ha; simpl.
    + unfold set_isAlive, ws_ping. rewrite run_modify. unfold modify, emit, set_sockets.
      simpl. f_equal. f_equal. apply alter_ext. intros sk' Hsk'.
      assert (sk' = sk) as -> by congruence. unfold sweep_socket. by rewrite Ha.
    + unfold ws_terminate. rewrite run_modify. unfold modify, emit, set_sockets.
      simpl. f_equal. f_equal. apply alter_ext. intros sk' Hsk'.
      assert (sk' = sk) as -> by congruence. unfold sweep_socket. by rewrite Ha.
  - unfold ws_terminate. rewrite run_modify. unfold modify, emit, set_sockets.
    simpl. f_equal. f_equal. apply alter_ext. intros sk' Hsk'. congruence.
Qed.

Lemma heartbeat_loop l s0 :
  NoDup l → ∀ s,
  (∀ ws, ws ∈ l → sockets s !! ws = sockets s0 !! ws) →
  ∃ s',
    forEach l (λ ws,
      s1 <- get ;;
      if negb (is_alive s1 ws)
      then ws_terminate ws
      else (set_isAlive ws false ;; ws_ping ws)) s = (Normal tt, s')
    ∧ effects s' = effects s ++ map (sweep_effect s0) l
    ∧ (∀ ws, sockets s' !! ws
             = if bool_decide (ws ∈ l) then sweep_socket <$> sockets s0 !! ws
               else sockets s !! ws)
    ∧ clients s' = clients s ∧ rooms s' = rooms s ∧ userSockets s' = userSockets s
    ∧ wss_clients s' = wss_clients s ∧ heartbeatInterval s' = heartbeatInterval s.
Proof.
  intros Hnd. induction Hnd as [|x l Hx Hl IH]; intros s Hs.
  - exists s. simpl. rewrite app_nil_r. by repeat split.
  - cbn [forEach]. rewrite (run_normal _ _ _ _ _ (heartbeat_body x s)).
    set (s1 := emit _ _).
    destruct (IH s1) as (s' & Hrun & He & Hso & Hrest).
    { intros ws Hws. simpl. rewrite lookup_alter_ne by (intros ->; done).
      apply Hs. by right. }
    exists s'. split; [done|]. split; [|split; [|done]].
    + rewrite He. simpl. rewrite <- app_assoc. simpl.
      assert (sweep_effect s x = sweep_effect s0 x) as ->; [|done].
      unfold sweep_effect, is_alive. by rewrite Hs by left.
    + intros ws. rewrite Hso. simpl.
      destruct (decide (ws = x)) as [->|Hne].
      * rewrite (bool_decide_eq_false_2 (x ∈ l)) by done.
        rewrite (bool_decide_eq_true_2 (x ∈ x :: l)) by left.
        rewrite lookup_alter_eq. by rewrite Hs by left.
      * rewrite lookup_alter_ne by done.
        rewrite (bool_decide_ext (ws ∈ x :: l) (ws ∈ l)); [done|].
        rewrite elem_of_cons. intuition congruence.
Qed.

(** What one firing of the timer does while the timer is armed. *)
Lemma timer_eq env s :
  heartbeatInterval s = true →
  ∃ s',
    handle env EvTimer s = (Normal tt, s')
    ∧ effects s' = effects s ++ map (sweep_effect s) (elements (wss_clients s))
    ∧ (∀ ws, sockets s' !! ws
             = if bool_decide (ws ∈ wss_clients s) then sweep_socket <$> sockets s !! ws
               else sockets s !! ws)
    ∧ clients s' = clients s ∧ rooms s' = rooms s ∧ userSockets s' = userSockets s
    ∧ wss_clients s' = wss_clients s ∧ heartbeatInterval s' = heartbeatInterval s.
Proof.
  intros Hhb. unfold handle. rewrite run_get, Hhb. unfold heartbeat. rewrite run_get.
  destruct (heartbeat_loop (elements (wss_clients s)) s (NoDup_elements _) s)
    as (s' & Hrun & He & Hso & Hrest); [done|].
  destruct Hrest as (H1 & H2 & H3 & H4 & H5).
  exists s'. split; [done|]. split; [done|].
  split; [|repeat split; congruence].
  intros ws. rewrite Hso.
  rewrite (bool_decide_ext (ws ∈ elements (wss_clients s)) (ws ∈ wss_clients s)); [done|].
  apply elem_of_elements.
Qed.

Lemma step_eq env ev s (o : Outcome unit) s' :
  handle env ev s = (o, s') → step s (env, ev) = s'.
Proof. intros H. unfold step, exec. cbn [fst snd]. by rewrite H. Qed.

Lemma since_app s s' es : effects s' = effects s ++ es → since s s' = es.
Proof. intros H. unfold since. by rewrite H, drop_app_length. Qed.

Lemma elem_of_sweep_effects e s (X : gset nat) :
  e ∈ map (sweep_effect s) (elements X) ↔ ∃ ws, ws ∈ X ∧ e = sweep_effect s ws.
Proof.
  rewrite list_elem_of_fmap. setoid_rewrite elem_of_elements. naive_solver.
Qed.

End Heartbeat.

#[local] Instance undisturbed_preorder ws : PreOrder (undisturbed ws).
Proof.
  split.
  - intros s _. repeat split; [done..|]. exists []. split; [by rewrite app_nil_r|].
    apply not_elem_of_nil.
  - intros s1 s2 s3 H12 H23 Hs. destruct (H12 Hs) as (Hso & Hw & Hh & es1 & He1 & Ht1).
    destruct H23 as (Hso' & Hw' & Hh' & es2 & He2 & Ht2); [by rewrite Hso|].
    split; [congruence|]. split; [by auto|]. split; [congruence|].
    exists (es1 ++ es2). split; [by rewrite He2, He1, app_assoc|].
    rewrite elem_of_app. tauto.
Qed.

#[local] Instance not_revived_preorder ws : PreOrder (not_revived ws).
Proof.
  split.
  - by intros s Hs.
  - intros s1 s2 s3 H12 H23 Hs. destruct (H12 Hs) as (Hs2 & Ha).
    destruct (H23 Hs2) as (Hs3 & Ha'). by auto.
Qed.

Section Quiet.
Context (ws : nat).

Lemma undisturbed_emit e s : e ≠ Terminate ws → undisturbed ws s (emit e s).
Proof.
  intros He _. repeat split; [done|]. exists [e]. split; [done|].
  rewrite list_elem_of_singleton. congruence.
Qed.

Lemma undisturbed_keep s s' :
  sockets s' = sockets s → wss_clients s' = wss_clients s →
  heartbeatInterval s' = heartbeatInterval s → effects s' = effects s →
  undisturbed ws s s'.
Proof.
  intros H1 H2 H3 H4 _. rewrite H1, H2, H3, H4. repeat split; [done|].
  exists []. split; [by rewrite app_nil_r|]. apply not_elem_of_nil.
Qed.

Lemma undisturbed_alter_other f c s : c ≠ ws → undisturbed ws s (set_sockets (alter f c) s).
Proof.
  intros Hc _. simpl. rewrite lookup_alter_ne by done. repeat split; [done|].
  exists []. split; [by rewrite app_nil_r|]. apply not_elem_of_nil.
Qed.

Lemma undisturbed_close_other c s :
  c ≠ ws → undisturbed ws s (set_wss_clients (λ cs, cs ∖ {[c]}) s).
Proof.
  intros Hc _. simpl. repeat split; [set_solver|].
  exists []. split; [by rewrite app_nil_r|]. apply not_elem_of_nil.
Qed.

Ltac undisturbed_steps :=
  respects_with ltac:(
    apply respects_modify; intros ?;
    first [ apply undisturbed_emit; discriminate
          | by apply undisturbed_keep
          | by apply undisturbed_alter_other
          | by apply undisturbed_close_other ]).

Lemma undisturbed_connection env user :
  respects (undisturbed ws) (handle env (EvConnection user)).
Proof.
  intros s Hs. unfold exec. rewrite connection_eq. simpl.
  assert (new_ws s ≠ ws).
  { intros Heq. rewrite <- Heq, new_ws_fresh in Hs. by destruct Hs. }
  rewrite lookup_insert_ne by done. repeat split; [set_solver|].
  eexists. split; [done|]. rewrite !elem_of_cons, elem_of_nil. intros [|[|]]; done.
Qed.

Lemma undisturbed_removeClient env c : respects (undisturbed ws) (removeClient env c).
Proof.
  unfold removeClient, broadcastToRoom, logger, ws_send. undisturbed_steps.
Qed.

Lemma undisturbed_handleMessage env c message :
  respects (undisturbed ws) (handleMessage env c message).
Proof.
  unfold handleMessage, joinRoom, leaveRoom, trackProduct, untrackProduct,
    broadcastToRoom, sendToClient, update_client, logger, ws_send.
  undisturbed_steps.
Qed.

Lemma undisturbed_call env c :
  c ≠ CallDestroy → respects (undisturbed ws) (call env c).
Proof.
  intros Hc. destruct c; try done; simpl;
    try apply undisturbed_removeClient;
    unfold joinRoom, leaveRoom, trackProduct, untrackProduct, broadcastProductUpdate,
      broadcastStockUpdate, broadcastPriceUpdate, broadcastNewProduct,
      broadcastUserActivity, sendNotification, broadcastAnalyticsUpdate, broadcast,
      broadcastToRoom, sendToClient, update_client, logger, ws_send;
    undisturbed_steps.
Qed.

Lemma undisturbed_handle env ev :
  quiet_event ws (env, ev) → respects (undisturbed ws) (handle env ev).
Proof.
  unfold quiet_event. destruct ev as [user|c message|c|c|c| |c]; simpl; intros Hq.
  - apply undisturbed_connection.
  - apply undisturbed_handleMessage.
  - respects_with ltac:(first
      [ apply undisturbed_removeClient
      | apply respects_modify; intros ?;
        first [ by apply undisturbed_alter_other | by apply undisturbed_close_other ] ]).
  - respects_with ltac:(first
      [ apply undisturbed_removeClient
      | apply respects_modify; intros ?; apply undisturbed_emit; discriminate ]).
  - unfold set_isAlive. apply respects_modify. intros s. by apply undisturbed_alter_other.
  - done.
  - apply undisturbed_call. by intros ->.
Qed.

Lemma undisturbed_run s evs :
  Forall (quiet_event ws) evs → undisturbed ws s (run s evs).
Proof.
  revert s. induction evs as [|[env ev] evs IH]; intros s Hq.
  - reflexivity.
  - apply Forall_cons in Hq as [Hq Hqs]. simpl. etrans; [|by apply IH].
    by apply undisturbed_handle.
Qed.

End Quiet.

Section NotRevived.
Context (ws : nat).

Lemma not_revived_keep s s' : sockets s' = sockets s → not_revived ws s s'.
Proof. intros H Hs. unfold is_alive. by rewrite H. Qed.

Lemma not_revived_alter f c s :
  (c ≠ ws ∨ ∀ sk, isAlive (f sk) = true → isAlive sk = true) →
  not_revived ws s (set_sockets (alter f c) s).
Proof.
  intros Hf Hs. unfold is_alive. simpl. split; [by apply lookup_alter_is_Some|].
  destruct (decide (c = ws)) as [->|Hne].
  - destruct Hf as [|Hf]; [done|]. rewrite lookup_alter_eq.
    destruct (sockets s !! ws) as [sk|]; simpl; [apply Hf|done].
  - by rewrite lookup_alter_ne.
Qed.

Ltac not_revived_steps :=
  respects_with ltac:(
    apply respects_modify; intros ?;
    first [ by apply not_revived_keep
          | apply not_revived_alter; right; intros sk; simpl;
            solve [ done | by destruct (readyState sk) ] ]).

Lemma not_revived_connection env user :
  respects (not_revived ws) (handle env (EvConnection user)).
Proof.
  intros s Hs. unfold exec. rewrite connection_eq. unfold is_alive. simpl.
  assert (new_ws s ≠ ws).
  { intros Heq. rewrite <- Heq, new_ws_fresh in Hs. by destruct Hs. }
  by rewrite lookup_insert_ne.
Qed.

Lemma not_revived_removeClient env c : respects (not_revived ws) (removeClient env c).
Proof.
  unfold removeClient, broadcastToRoom, logger, ws_send. not_revived_steps.
Qed.

Lemma not_revived_handleMessage env c message :
  respects (not_revived ws) (handleMessage env c message).
Proof.
  unfold handleMessage, joinRoom, leaveRoom, trackProduct, untrackProduct,
    broadcastToRoom, sendToClient, update_client, logger, ws_send.
  not_revived_steps.
Qed.

Lemma not_revived_call env c : respects (not_revived ws) (call env c).
Proof.
  destruct c; simpl;
    try apply not_revived_removeClient;
    unfold joinRoom, leaveRoom, trackProduct, untrackProduct, broadcastProductUpdate,
      broadcastStockUpdate, broadcastPriceUpdate, broadcastNewProduct,
      broadcastUserActivity, sendNotification, broadcastAnalyticsUpdate, broadcast,
      broadcastToRoom, sendToClient, update_client, logger, ws_send, destroy, ws_terminate;
    not_revived_steps.
Qed.

Lemma not_revived_handle env ev :
  ev ≠ EvPong ws → respects (not_revived ws) (handle env ev).
Proof.
  destruct ev as [user|c message|c|c|c| |c]; simpl; intros Hq.
  - apply not_revived_connection.
  - apply not_revived_handleMessage.
  - respects_with ltac:(first
      [ apply not_revived_removeClient
      | apply respects_modify; intros ?;
        first [ by apply not_revived_keep
              | apply not_revived_alter; right; by intros sk ] ]).
  - respects_with ltac:(first
      [ apply not_revived_removeClient
      | apply respects_modify; intros ?; by apply not_revived_keep ]).
  - unfold set_isAlive. apply respects_modify. intros s. apply not_revived_alter.
    left. congruence.
  - unfold heartbeat, ws_terminate, set_isAlive, ws_ping. not_revived_steps.
  - apply not_revived_call.
Qed.

End NotRevived.

Section TwoTicks.

Lemma sweep_effect_Terminate s ws c : sweep_effect s c = Terminate ws ↔ c = ws ∧ is_alive s ws = false.
Proof.
  unfold sweep_effect. destruct (is_alive s c) eqn:Ha.
  - split; [done|]. intros [-> ?]. congruence.
  - split; [intros [= ->]; done|]. by intros [-> _].
Qed.

Lemma sweep_effect_Ping s ws c : sweep_effect s c = Ping ws ↔ c = ws ∧ is_alive s ws = true.
Proof.
  unfold sweep_effect. destruct (is_alive s c) eqn:Ha.
  - split; [intros [= ->]; done|]. by intros [-> _].
  - split; [done|]. intros [-> ?]. congruence.
Qed.

(** One sweep, seen from one connection. *)
Lemma sweep_one env s ws :
  heartbeatInterval s = true →
  let s' := step s (env, EvTimer) in
  (Terminate ws ∈ since s s' ↔ ws ∈ wss_clients s ∧ is_alive s ws = false)
  ∧ (Ping ws ∈ since s s' ↔ ws ∈ wss_clients s ∧ is_alive s ws = true)
  ∧ (ws ∈ wss_clients s → is_alive s' ws = false)
  ∧ wss_clients s' = wss_clients s ∧ heartbeatInterval s' = heartbeatInterval s
  ∧ (is_Some (sockets s !! ws) → is_Some (sockets s' !! ws)).
Proof.
  intros Hhb s'. destruct (timer_eq env s Hhb) as (s1 & Hrun & He & Hso & _ & _ & _ & Hw & Hh).
  assert (s' = s1) as -> by apply (step_eq _ _ _ _ _ Hrun).
  rewrite (since_app _ _ _ He). split; [|split; [|split; [|split; [|split]]]]; try done.
  - rewrite elem_of_sweep_effects. split.
    + intros (c & Hc & Heq). symmetry in Heq. apply sweep_effect_Terminate in Heq as [-> ?].
      done.
    + intros [Hc Ha]. exists ws. split; [done|]. symmetry. by apply sweep_effect_Terminate.
  - rewrite elem_of_sweep_effects. split.
    + intros (c & Hc & Heq). symmetry in Heq. apply sweep_effect_Ping in Heq as [-> ?].
      done.
    + intros [Hc Ha]. exists ws. split; [done|]. symmetry. by apply sweep_effect_Ping.
  - intros Hc. unfold is_alive. rewrite Hso, bool_decide_eq_true_2 by done.
    destruct (sockets s !! ws) as [sk|]; simpl; [|done].
    unfold sweep_socket. destruct (isAlive sk) eqn:Ha; simpl; [done|].
    by destruct (readyState sk).
  - rewrite Hso. destruct (bool_decide _); [|done]. intros [sk ->]. by eexists.
Qed.

(** C5. While the timer is armed, a sweep asks the transport to terminate
    exactly the connections of [wss.clients] whose liveness flag is
    false, and pings the others after lowering their flag. Nothing but a
    pong of the connection raises a lowered flag. Hence a connection
    that answers no ping and sees no event of its own after its last
    pong is pinged, not terminated, by the first sweep after that pong
    and terminated by the second: with sweeps one interval (30 000 ms)
    apart and the first of them at most one interval after the pong, the
    termination comes no earlier than one interval and no later than two
    intervals after the pong. *)
Theorem heartbeat_two_ticks :
  (∀ env s ws, heartbeatInterval s = true →
     let s' := step s (env, EvTimer) in
     (Terminate ws ∈ since s s' ↔ ws ∈ wss_clients s ∧ is_alive s ws = false)
     ∧ (Ping ws ∈ since s s' ↔ ws ∈ wss_clients s ∧ is_alive s ws = true)
     ∧ (ws ∈ wss_clients s → is_alive s' ws = false))
  ∧ (∀ env ev s ws, is_Some (sockets s !! ws) → is_alive s ws = false →
       is_alive (step s (env, ev)) ws = true → ev = EvPong ws)
  ∧ (∀ env s ws, is_Some (sockets s !! ws) → is_alive (step s (env, EvPong ws)) ws = true)
  ∧ (∀ s ws envp env1 env2 evs1 evs2 (t t1 t2 : Z),
       heartbeatInterval s = true → ws ∈ wss_clients s → is_Some (sockets s !! ws) →
       Forall (quiet_event ws) evs1 → Forall (quiet_event ws) evs2 →
       (t ≤ t1 ≤ t + sweep_interval)%Z → t2 = (t1 + sweep_interval)%Z →
       let s0 := step s (envp, EvPong ws) in
       let s1 := run s0 evs1 in
       let s2 := step s1 (env1, EvTimer) in
       let s3 := run s2 evs2 in
       let s4 := step s3 (env2, EvTimer) in
       (Terminate ws ∉ since s0 s3)
       ∧ Ping ws ∈ since s1 s2
       ∧ Terminate ws ∈ since s3 s4
       ∧ (t + sweep_interval ≤ t2 ≤ t + 2 * sweep_interval)%Z).
Proof.
  split; [|split; [|split]].
  - intros env s ws Hhb s'. destruct (sweep_one env s ws Hhb) as (H1 & H2 & H3 & _).
    split; [exact H1|split; [exact H2|exact H3]].
  - intros env ev s ws Hs Hdead Halive.
    assert (Hcase : ev = EvPong ws ∨ ev ≠ EvPong ws).
    { destruct ev as [| | | |c| |]; try (right; discriminate).
      destruct (decide (c = ws)) as [->|]; [by left|right; congruence]. }
    destruct Hcase as [|Hne]; [done|].
    destruct (not_revived_handle ws env ev Hne s Hs) as [_ Hrev].
    specialize (Hrev Halive). congruence.
  - intros env s ws [sk Hsk]. unfold step, exec, is_alive. simpl.
    by rewrite lookup_alter_eq, Hsk.
  - intros s ws envp env1 env2 evs1 evs2 t t1 t2 Hhb Hw Hs Hq1 Hq2 Ht1 Ht2 s0 s1 s2 s3 s4.
    assert (Hs0 : is_Some (sockets s0 !! ws))
      by (unfold s0, step, exec; simpl; by apply lookup_alter_is_Some).
    assert (Ha0 : is_alive s0 ws = true).
    { destruct Hs as [sk Hsk]. unfold s0, step, exec, is_alive. simpl.
      by rewrite lookup_alter_eq, Hsk. }
    destruct (undisturbed_run ws s0 evs1 Hq1 Hs0) as (Hso1 & Hw1 & Hh1 & es1 & He1 & Ht1').
    fold s1 in Hso1, Hw1, Hh1, He1.
    assert (Hhb1 : heartbeatInterval s1 = true) by (rewrite Hh1; exact Hhb).
    assert (Ha1 : is_alive s1 ws = true) by (unfold is_alive; rewrite Hso1; exact Ha0).
    destruct (sweep_one env1 s1 ws Hhb1) as (HT2 & HP2 & Ha2 & Hw2 & Hh2 & Hs2).
    fold s2 in HT2, HP2, Ha2, Hw2, Hh2, Hs2.
    assert (Hs1 : is_Some (sockets s1 !! ws)) by by rewrite Hso1.
    destruct (undisturbed_run ws s2 evs2 Hq2 (Hs2 Hs1))
      as (Hso3 & Hw3 & Hh3 & es3 & He3 & Ht3').
    fold s3 in Hso3, Hw3, Hh3, He3.
    assert (Hhb3 : heartbeatInterval s3 = true) by congruence.
    assert (Hin3 : ws ∈ wss_clients s3) by (apply Hw3; rewrite Hw2; by apply Hw1).
    assert (Ha3 : is_alive s3 ws = false).
    { unfold is_alive. rewrite Hso3. apply Ha2. by apply Hw1. }
    destruct (sweep_one env2 s3 ws Hhb3) as (HT4 & _). fold s4 in HT4.
    split; [|split; [|split]].
    + assert (He2 : effects s2 = effects s1 ++ since s1 s2).
      { destruct (timer_eq env1 s1 Hhb1) as (s' & Hrun & He & _).
        assert (s2 = s') as -> by apply (step_eq _ _ _ _ _ Hrun).
        by rewrite (since_app _ _ _ He). }
      rewrite (since_app s0 s3 (es1 ++ since s1 s2 ++ es3)).
      * rewrite !elem_of_app. intros [?|[HT|?]]; [done| |done].
        apply HT2 in HT as [_ ?]. congruence.
      * rewrite He3, He2, He1. by rewrite <- !app_assoc.
    + apply HP2. split; [by apply Hw1|done].
    + by apply HT4.
    + unfold sweep_interval in *. lia.
Qed.

Lemma heartbeat_two_ticks_witness :
  let s0 := step two_connected (env0, EvPong 0) in
  let s1 := run s0 [(env0, EvMessage 1 (FJoinRoom "jazz"))] in
  let s2 := step s1 (env0, EvTimer) in
  let s3 := run s2 [] in
  let s4 := step s3 (env0, EvTimer) in
  (Terminate 0 ∉ since s0 s3) ∧ Ping 0 ∈ since s1 s2 ∧ Terminate 0 ∈ since s3 s4
  ∧ (1000 + sweep_interval ≤ 60000 ≤ 1000 + 2 * sweep_interval)%Z.
Proof.
  assert (H1 : heartbeatInterval two_connected = true) by reflexivity.
  assert (H2 : 0 ∈ wss_clients two_connected).
  { apply (bool_decide_unpack _). vm_compute. exact I. }
  assert (H3 : is_Some (sockets two_connected !! 0)) by (eexists; reflexivity).
  assert (H4 : Forall (quiet_event 0) [(env0, EvMessage 1 (FJoinRoom "jazz"))])
    by (constructor; [exact I|constructor]).
  assert (H5 : (1000 ≤ 30000 ≤ 1000 + sweep_interval)%Z) by (unfold sweep_interval; lia).
  assert (H6 : 60000%Z = (30000 + sweep_interval)%Z) by reflexivity.
  exact (proj2 (proj2 (proj2 heartbeat_two_ticks)) two_connected 0 env0 env0 env0
           [(env0, EvMessage 1 (FJoinRoom "jazz"))] [] 1000%Z 30000%Z 60000%Z
           H1 H2 H3 H4 (Forall_nil_2 _) H5 H6).
Defined.

End TwoTicks.

(** ** The discount of a price update *)

Section Discount.
Local Open Scope Z_scope.

Lemma sign_clear_not_negative x : sign_clear x → is_negative x = false.
Proof. destruct x as [s|s| |s m e]; simpl; try done; by intros ->. Qed.

Lemma sign_clear_binary_round_aux mx ex lx :
  sign_clear (binary_round_aux prec emax false mx ex lx).
Proof.
  unfold binary_round_aux.
  destruct (shr_fexp prec emax mx ex lx) as [mrs' e'].
  destruct (shr_fexp prec emax _ e' loc_Exact) as [mrs'' e''].
  destruct (shr_m mrs''); [done| |done].
  by destruct (e'' <=? emax - prec).
Qed.

Lemma sign_clear_binary_round m e : sign_clear (binary_round prec emax false m e).
Proof.
  unfold binary_round. destruct (shl_align _ _ _) as [mz ez].
  apply sign_clear_binary_round_aux.
Qed.

Lemma sign_clear_number_of_Z n : 0 ≤ n → sign_clear (number_of_Z n).
Proof.
  intros Hn. unfold number_of_Z, binary_normalize. destruct n as [|p|p]; [done| |lia].
  apply sign_clear_binary_round.
Qed.


Lemma sign_clear_mul x y :
  sign_clear x → (∃ m e, y = S754_finite false m e) → sign_clear (mul x y).
Proof.
  intros Hx (m & e & ->). unfold mul, SFmul.
  destruct x as [s|s| |s mx ex]; simpl in *; subst; try done.
  apply sign_clear_binary_round_aux.
Qed.

(** A divisor above zero. *)
Lemma sign_clear_div x y :
  sign_clear x →
  match y with S754_infinity false | S754_finite false _ _ => True | _ => False end →
  sign_clear (div x y).
Proof.
  intros Hx Hy. unfold div, SFdiv.
  destruct x as [s|s| |s mx ex], y as [s'|[]| |[] my ey]; simpl in *; subst; try done.
  destruct (SFdiv_core_binary _ _ _ _ _ _) as [[mz ez] lz].
  apply sign_clear_binary_round_aux.
Qed.

Lemma sign_clear_Math_round x : sign_clear x → sign_clear (Math_round x).
Proof.
  destruct x as [s|s| |s m e]; simpl; try done. intros ->.
  destruct (0 <=? e); [done|].
  set (n := Z.shiftr _ _). destruct (n =? 0) eqn:Hn; [done|].
  apply sign_clear_number_of_Z. unfold n. apply Z.shiftr_nonneg.
  assert (0 ≤ Z.shiftl 1 (- e)) by by apply Z.shiftl_nonneg.
  lia.
Qed.

Lemma digits2_pos_size m : digits2_pos m = Pos.size m.
Proof. induction m; simpl; congruence. Qed.

Lemma digits2_pos_bounds m :
  2 ^ (Z.pos (digits2_pos m) - 1) ≤ Z.pos m < 2 ^ Z.pos (digits2_pos m).
Proof.
  rewrite digits2_pos_size. split.
  - pose proof (Pos.size_le m) as H.
    assert (H' : Z.pos (2 ^ Pos.size m) ≤ Z.pos m~0) by exact H.
    rewrite Pos2Z.inj_pow in H'.
    replace (Z.pos (Pos.size m)) with (Z.pos (Pos.size m) - 1 + 1) in H' by lia.
    rewrite Z.pow_add_r in H' by lia. lia.
  - pose proof (Pos.size_gt m) as H.
    assert (H' : Z.pos m < Z.pos (2 ^ Pos.size m)) by exact H.
    by rewrite Pos2Z.inj_pow in H'.
Qed.

Lemma iter_xO_value m d : Z.pos (Pos.iter xO m d) = Z.pos m * 2 ^ Z.pos d.
Proof.
  pose proof (shift_pos_correct d m) as H. unfold shift_pos in H.
  rewrite H, Z.pow_pos_fold. lia.
Qed.

Lemma shl_align_value m e e' :
  Z.pos (fst (shl_align m e e')) = if e' <? e then Z.pos m * 2 ^ (e - e') else Z.pos m.
Proof.
  unfold shl_align. destruct (e' - e) as [|d|d] eqn:Hd; simpl.
  - rewrite (proj2 (Z.ltb_ge e' e)) by lia. done.
  - rewrite (proj2 (Z.ltb_ge e' e)) by lia. done.
  - rewrite (proj2 (Z.ltb_lt e' e)) by lia. rewrite iter_xO_value. f_equal. f_equal. lia.
Qed.

(** What being well formed says of a finite binary64 value. *)
Lemma bounded_inv m e :
  bounded prec emax m e = true →
  Z.pos (digits2_pos m) ≤ 53 ∧ -1074 ≤ e ∧ (-1074 < e → Z.pos (digits2_pos m) = 53).
Proof.
  unfold bounded, canonical_mantissa, fexp, emin.
  intros [H _]%andb_true_iff. apply Z.eqb_eq in H. lia.
Qed.

Lemma sign_clear_sub_finite mo eo mn en :
  bounded prec emax mo eo = true → bounded prec emax mn en = true →
  SFltb (S754_finite false mn en) (S754_finite false mo eo) = true →
  sign_clear (sub (S754_finite false mo eo) (S754_finite false mn en)).
Proof.
  intros Ho Hn Hlt.
  assert (Hdiff : 0 ≤ Z.pos (fst (shl_align mo eo (Z.min eo en)))
                      - Z.pos (fst (shl_align mn en (Z.min eo en)))).
  { rewrite !shl_align_value. unfold SFltb, SFcompare in Hlt.
    destruct (Z.compare_spec en eo) as [->|Hlt'|Hgt]; [| |done].
    - rewrite Z.min_id, Z.ltb_irrefl.
      destruct (Pos.compare_cont Eq mn mo) eqn:Hc; try done.
      assert (mn < mo)%positive by exact Hc. lia.
    - rewrite Z.min_r by lia. rewrite Z.ltb_irrefl, (proj2 (Z.ltb_lt en eo)) by done.
      apply bounded_inv in Ho as (_ & _ & Ho). apply bounded_inv in Hn as (Hn & Hen & _).
      pose proof (digits2_pos_bounds mo) as [Hmo _].
      pose proof (digits2_pos_bounds mn) as [_ Hmn].
      rewrite Ho in Hmo by lia.
      assert (Z.pos mn < 2 ^ 53).
      { eapply Z.lt_le_trans; [done|]. apply Z.pow_le_mono_r; lia. }
      assert (2 ^ 1 ≤ 2 ^ (eo - en)) by (apply Z.pow_le_mono_r; lia).
      change (2 ^ (53 - 1)) with 4503599627370496 in Hmo.
      change (2 ^ 53) with 9007199254740992 in *. change (2 ^ 1) with 2 in *. nia. }
  unfold sub, SFsub, binary_normalize. simpl cond_Zopp.
  destruct (_ - _) as [|p|p]; [done|apply sign_clear_binary_round|lia].
Qed.

(** The difference of two prices, the first above the second. *)
Lemma sign_clear_sub old new :
  is_price old → is_price new → gt old new = true →
  sign_clear (sub old new)
  ∧ match old with S754_infinity false | S754_finite false _ _ => True | _ => False end.
Proof.
  intros [Vo Po] [Vn Pn] Hgt. unfold gt in Hgt.
  destruct old as [so|[]| |[] mo eo], new as [sn|[]| |[] mn en];
    simpl in *; try done.
  split; [|done]. by apply sign_clear_sub_finite.
Qed.

Lemma discount_not_negative new old :
  is_price new → is_price old → is_negative (discount new old) = false.
Proof.
  intros Hn Ho. apply sign_clear_not_negative. unfold discount.
  destruct (gt old new) eqn:Hgt; [|done].
  destruct (sign_clear_sub old new Ho Hn Hgt) as [Hsub Hpos].
  apply sign_clear_Math_round, sign_clear_mul.
  - by apply sign_clear_div.
  - by eexists _, _.
Qed.

Lemma serialisable_PRICE_UPDATE p new old ts :
  serialisable (PRICE_UPDATE p new old ts) = true.
Proof. by destruct p. Qed.

(** C9. [broadcastPriceUpdate] writes to every open connection a
    PRICE_UPDATE message whose [discount] field is
    [Math.round(((oldPrice - newPrice) / oldPrice) * 100)] when
    [oldPrice > newPrice] and [0] otherwise, in binary64 arithmetic: 25
    for 100 down to 75, 0 for 50 up to 60, and for prices (numbers that
    are not NaN and not below zero) never a negative number. *)
Theorem price_update_discount :
  (∀ env p new old s,
     broadcastPriceUpdate env p new old s
       = (Normal tt,
          emits (sends (PRICE_UPDATE p new old (now env)) (broadcast_targets s None)) s)
     ∧ field "discount" (PRICE_UPDATE p new old (now env)) = JNum (discount new old))
  ∧ (∀ new old, gt old new = true →
       discount new old
       = Math_round (mul (div (sub old new) old) (number_of_Z 100)))
  ∧ (∀ new old, gt old new = false → discount new old = number_of_Z 0)
  ∧ discount (number_of_Z 75) (number_of_Z 100) = number_of_Z 25
  ∧ discount (number_of_Z 60) (number_of_Z 50) = number_of_Z 0
  ∧ (∀ new old, is_price new → is_price old → is_negative (discount new old) = false).
Proof.
  split; [|split; [|split; [|split; [|split]]]].
  - intros env p new old s. split; [|done].
    unfold broadcastPriceUpdate. apply broadcast_eq, serialisable_PRICE_UPDATE.
  - intros new old H. unfold discount. by rewrite H.
  - intros new old H. unfold discount. by rewrite H.
  - by vm_compute.
  - by vm_compute.
  - apply discount_not_negative.
Qed.

(** 19.99 down from 24.99: a discount of 20. *)
Lemma price_update_discount_witness :
  let new := S754_finite false 5626684784446013 (-48) in
  let old := S754_finite false 7034059667999293 (-48) in
  is_negative (discount new old) = false ∧ discount new old = number_of_Z 20.
Proof.
  intros new old. split; [|by vm_compute].
  apply (proj2 (proj2 (proj2 (proj2 (proj2 price_update_discount)))) new old).
  - split; reflexivity.
  - split; reflexivity.
Defined.

End Discount.

(** * Further properties of the connection manager *)

(** ** Frames that get no reply *)

Section QuietFrames.

(** X1. [handleMessage] never throws, and the frames it cannot use leave
    no trace but a log line: a frame that does not parse is logged as an
    error; any other frame from a connection that is not registered is
    dropped without a trace; a [null] frame from a registered connection
    is logged as an error and a frame of unknown type as a warning, after
    the refresh of [lastActivity]. None of them writes to a connection. *)
Theorem unusable_frames_only_log (env : Env) (ws : nat) (s : State) :
  (∀ message, ∃ s', handleMessage env ws message s = (Normal tt, s'))
  ∧ handleMessage env ws FSyntaxError s = (Normal tt, emits [Log error] s)
  ∧ (∀ message, clients s !! ws = None → message ≠ FSyntaxError →
       handleMessage env ws message s = (Normal tt, s))
  ∧ (∀ ci, clients s !! ws = Some ci →
       handleMessage env ws FNull s = (Normal tt, emits [Log error] (touch env ws s))
       ∧ handleMessage env ws FOther s = (Normal tt, emits [Log warn] (touch env ws s))).
Proof.
  split; [|split; [|split]].
  - intros message. unfold handleMessage, try_catch.
    match goal with |- context [match ?b s with _ => _ end] => destruct (b s) as [[[]|e] s'] end.
    + by eexists.
    + by eexists.
  - reflexivity.
  - intros message Hc Hm. unfold handleMessage, try_catch.
    destruct message; try done; by rewrite run_get, Hc.
  - intros ci Hc. split; unfold handleMessage, try_catch; by rewrite run_get, Hc.
Qed.

Lemma unusable_frames_only_log_witness :
  handleMessage env0 5 (FJoinRoom "jazz") two_connected = (Normal tt, two_connected)
  ∧ handleMessage env0 0 FNull two_connected
    = (Normal tt, emits [Log error] (touch env0 0 two_connected)).
Proof.
  pose proof (unusable_frames_only_log env0 5 two_connected) as (_ & _ & H5 & _).
  pose proof (unusable_frames_only_log env0 0 two_connected) as (_ & _ & _ & H0).
  split.
  - apply H5; [reflexivity|discriminate].
  - exact (proj1 (H0 _ eq_refl)).
Defined.

(** X2. A HEARTBEAT frame from a registered connection is answered with
    one PONG to the sender, if it is open, and to nobody else; it
    refreshes [lastActivity] and touches neither the room and user
    indexes nor any [ws] object: the transport liveness flag the sweep
    looks at is not raised by it. *)
Theorem heartbeat_frame_reply (env : Env) (ws : nat) (s : State) (ci : ClientInfo) :
  clients s !! ws = Some ci →
  handleMessage env ws FHeartbeat s
    = (Normal tt,
       emits (if is_open s ws then [Send ws (PONG (now env))] else []) (touch env ws s))
  ∧ sockets (touch env ws s) = sockets s
  ∧ rooms (touch env ws s) = rooms s
  ∧ userSockets (touch env ws s) = userSockets s
  ∧ (∀ c, is_alive (exec (handleMessage env ws FHeartbeat) s) c = is_alive s c)
  ∧ (∀ c, c ≠ ws →
       sent_to c (if is_open s ws then [Send ws (PONG (now env))] else []) = []).
Proof.
  intros Hc.
  assert (Heq : handleMessage env ws FHeartbeat s
    = (Normal tt,
       emits (if is_open s ws then [Send ws (PONG (now env))] else []) (touch env ws s))).
  { unfold handleMessage, try_catch. rewrite run_get, Hc.
    unfold update_client. rewrite run_modify. fold (touch env ws s).
    by rewrite (sendToClient_eq ws (PONG (now env)) (touch env ws s)). }
  split; [done|]. repeat split.
  - intros c. unfold exec. by rewrite Heq.
  - intros c Hne. destruct (is_open s ws); [|done]. simpl.
    destruct (Nat.eqb_spec ws c); [congruence|done].
Qed.

Lemma heartbeat_frame_reply_witness :
  handleMessage env0 1 FHeartbeat two_connected
  = (Normal tt, emits [Send 1 (PONG (now env0))] (touch env0 1 two_connected)).
Proof.
  exact (proj1 (heartbeat_frame_reply env0 1 two_connected
                  (mkClientInfo (generateClientId env0) None (now env0) (now env0) ∅ ∅)
                  eq_refl)).
Defined.

End QuietFrames.

(** ** Round trips *)

Section RoundTrips.

Lemma with_rooms_with_rooms f g c : with_rooms f (with_rooms g c) = with_rooms (f ∘ g) c.
Proof. by destruct c. Qed.

Lemma alter_alter_eq {K A} `{Countable K} (f g : A → A) (k : K) (m : gmap K A) :
  alter f k (alter g k m) = alter (f ∘ g) k m.
Proof.
  apply map_eq. intros j. destruct (decide (k = j)) as [->|Hne].
  - rewrite !lookup_alter_eq. by destruct (m !! j).
  - by rewrite !lookup_alter_ne.
Qed.

(** X3. Joining a room and then leaving it puts the three indexes back as
    they were, for a registered connection that was not in the room, when
    the room, if it exists, has a member; what remains of the two calls
    is the frames sent. *)
Theorem join_then_leave_restores (env env' : Env) (s : State) (ws : nat) (r : string)
    (ci : ClientInfo) :
  clients s !! ws = Some ci → r ∉ ci_rooms ci →
  (∀ members, rooms s !! r = Some members → (ws ∉ members) ∧ members ≠ ∅) →
  let s' := exec (leaveRoom env' ws r) (exec (joinRoom env ws r) s) in
  clients s' = clients s ∧ rooms s' = rooms s ∧ userSockets s' = userSockets s
  ∧ sockets s' = sockets s ∧ wss_clients s' = wss_clients s.
Proof.
  intros Hc Hr Hm s'.
  assert (Hj := joinRoom_eq env ws r s ci Hc). simpl in Hj.
  set (members := default ∅ (rooms s !! r) ∪ {[ws]}) in *.
  set (s1 := exec (joinRoom env ws r) s).
  assert (Hs1 : s1 = snd (joinRoom env ws r s)) by done. rewrite Hj in Hs1. simpl in Hs1.
  assert (Hc1 : clients s1 !! ws = Some (with_rooms (λ rs, rs ∪ {[r]}) ci)).
  { rewrite Hs1. simpl. by rewrite lookup_alter_eq, Hc. }
  assert (Hr1 : rooms s1 !! r = Some members).
  { rewrite Hs1. simpl. apply lookup_insert_eq. }
  assert (Hl := leaveRoom_eq env' ws r s1 _ members Hc1 Hr1).
  assert (Hs' : s' = snd (leaveRoom env' ws r s1)) by done. rewrite Hl in Hs'. simpl in Hs'.
  rewrite Hs'. simpl. rewrite Hs1. simpl.
  split; [|split; [|done]].
  - rewrite alter_alter_eq. apply alter_id. intros c Hc'.
    assert (c = ci) as -> by congruence.
    unfold compose. rewrite with_rooms_with_rooms. apply with_rooms_id.
    unfold compose. set_solver.
  - destruct (rooms s !! r) as [m|] eqn:Hrm.
    + destruct (Hm m eq_refl) as [Hnin Hne].
      assert (Hback : members ∖ {[ws]} = m) by (unfold members; simpl; set_solver).
      rewrite Hback. rewrite bool_decide_eq_false_2 by done.
      rewrite insert_insert_eq. by apply insert_id.
    + assert (Hback : members ∖ {[ws]} = ∅) by (unfold members; simpl; set_solver).
      rewrite bool_decide_eq_true_2 by done.
      rewrite delete_insert_eq. by apply delete_id.
Qed.

Lemma join_then_leave_restores_witness :
  rooms (exec (leaveRoom env0 0 "blues") (exec (joinRoom env0 0 "blues") two_in_room))
  = rooms two_in_room.
Proof.
  refine (proj1 (proj2 (join_then_leave_restores env0 env0 two_in_room 0 "blues"
                  (mkClientInfo (generateClientId env0) (Some 7%Z) (now env0) (now env0)
                     {["jazz"]} ∅) eq_refl _ _))).
  - apply (bool_decide_unpack _). vm_compute. exact I.
  - intros members Hm. vm_compute in Hm. discriminate Hm.
Defined.

End RoundTrips.

(** ** Product tracking and the filtered broadcasts *)

Section Tracking.

Lemma since_emits s es : since s (emits es s) = es.
Proof. by apply since_app. Qed.

Lemma serialisable_js_of_product p : serialisable (js_of_product p) = true.
Proof. by destruct p. Qed.

Lemma trackProduct_eq env ws p s ci :
  clients s !! ws = Some ci →
  trackProduct env ws p s
  = (Normal tt,
     emits (if is_open s ws then [Send ws (PRODUCT_TRACKED p (now env))] else [])
       (set_clients (alter (with_trackedProducts (λ ps, ps ∪ {[p]})) ws) s)).
Proof.
  intros Hc. unfold trackProduct. rewrite run_get, Hc.
  unfold update_client. rewrite run_modify.
  rewrite sendToClient_eq; [done|]. simpl. by rewrite serialisable_js_of_product.
Qed.

Lemma untrackProduct_eq env ws p s ci :
  clients s !! ws = Some ci →
  untrackProduct env ws p s
  = (Normal tt,
     emits (if is_open s ws then [Send ws (PRODUCT_UNTRACKED p (now env))] else [])
       (set_clients (alter (with_trackedProducts (λ ps, ps ∖ {[p]})) ws) s)).
Proof.
  intros Hc. unfold untrackProduct. rewrite run_get, Hc.
  unfold update_client. rewrite run_modify.
  rewrite sendToClient_eq; [done|]. simpl. by rewrite serialisable_js_of_product.
Qed.

Lemma with_trackedProducts_id f c :
  f (trackedProducts c) = trackedProducts c → with_trackedProducts f c = c.
Proof. intros H. destruct c. unfold with_trackedProducts. simpl in *. by rewrite H. Qed.

(** X4. For a registered connection, [trackProduct] makes the product
    tracked and [untrackProduct] makes it untracked, neither touches the
    tracking of another product, each confirms to the connection alone,
    and tracking a product that was not tracked and then untracking it
    puts the primary map back as it was. For a connection that is not
    registered both return with the state untouched. *)
Theorem tracking_round_trip (env env' : Env) (s : State) (ws : nat) (p : ProductId) :
  (∀ ci, clients s !! ws = Some ci →
     let s1 := exec (trackProduct env ws p) s in
     let s2 := exec (untrackProduct env ws p) s in
     tracks p (clients s1) ws = true
     ∧ tracks p (clients s2) ws = false
     ∧ (∀ q, q ≠ p → tracks q (clients s1) ws = tracks q (clients s) ws
                    ∧ tracks q (clients s2) ws = tracks q (clients s) ws)
     ∧ since s s1 = (if is_open s ws then [Send ws (PRODUCT_TRACKED p (now env))] else [])
     ∧ since s s2 = (if is_open s ws then [Send ws (PRODUCT_UNTRACKED p (now env))] else [])
     ∧ (p ∉ trackedProducts ci →
        clients (exec (untrackProduct env' ws p) s1) = clients s))
  ∧ (clients s !! ws = None →
     trackProduct env ws p s = (Normal tt, s) ∧ untrackProduct env ws p s = (Normal tt, s)).
Proof.
  split.
  - intros ci Hc s1 s2.
    assert (H1 : s1 = snd (trackProduct env ws p s)) by done.
    assert (H2 : s2 = snd (untrackProduct env ws p s)) by done.
    rewrite (trackProduct_eq _ _ _ _ _ Hc) in H1.
    rewrite (untrackProduct_eq _ _ _ _ _ Hc) in H2. simpl in H1, H2.
    assert (Hc1 : clients s1 !! ws
                  = Some (with_trackedProducts (λ ps, ps ∪ {[p]}) ci)).
    { rewrite H1. simpl. by rewrite lookup_alter_eq, Hc. }
    assert (Hc2 : clients s2 !! ws
                  = Some (with_trackedProducts (λ ps, ps ∖ {[p]}) ci)).
    { rewrite H2. simpl. by rewrite lookup_alter_eq, Hc. }
    split; [|split; [|split; [|split; [|split]]]].
    + unfold tracks. rewrite Hc1. simpl. apply bool_decide_eq_true. set_solver.
    + unfold tracks. rewrite Hc2. simpl. apply bool_decide_eq_false. set_solver.
    + intros q Hq. unfold tracks. rewrite Hc1, Hc2, Hc. simpl.
      split; apply bool_decide_ext; set_solver.
    + apply since_app. by rewrite H1.
    + apply since_app. by rewrite H2.
    + intros Hp. unfold exec. rewrite (untrackProduct_eq _ _ _ _ _ Hc1). simpl.
      rewrite H1. simpl. rewrite alter_alter_eq. apply alter_id.
      intros c Hc'. assert (c = ci) as -> by congruence.
      unfold compose. destruct ci. unfold with_trackedProducts. simpl in *.
      f_equal. set_solver.
  - intros Hc. unfold trackProduct, untrackProduct. by rewrite !run_get, Hc.
Qed.

Lemma tracking_round_trip_witness :
  tracks (PNum 42) (clients (exec (trackProduct env0 0 (PNum 42)) two_connected)) 0 = true
  ∧ trackProduct env0 9 (PNum 42) two_connected = (Normal tt, two_connected).
Proof.
  split.
  - exact (proj1 (proj1 (tracking_round_trip env0 env0 two_connected 0 (PNum 42))
                    (mkClientInfo (generateClientId env0) (Some 7%Z) (now env0) (now env0)
                       ∅ ∅) eq_refl)).
  - exact (proj1 (proj2 (tracking_round_trip env0 env0 two_connected 9 (PNum 42)) eq_refl)).
Defined.

Lemma tracking_round_trip_aux env s ws p ci :
  clients s !! ws = Some ci →
  let s1 := exec (trackProduct env ws p) s in
  let s2 := exec (untrackProduct env ws p) s in
  tracks p (clients s1) ws = true ∧ tracks p (clients s2) ws = false
  ∧ (wss_clients s1 = wss_clients s ∧ sockets s1 = sockets s)
  ∧ (wss_clients s2 = wss_clients s ∧ sockets s2 = sockets s).
Proof.
  intros Hc s1 s2.
  assert (H1 : s1 = snd (trackProduct env ws p s)) by done.
  assert (H2 : s2 = snd (untrackProduct env ws p s)) by done.
  rewrite (trackProduct_eq _ _ _ _ _ Hc) in H1.
  rewrite (untrackProduct_eq _ _ _ _ _ Hc) in H2. simpl in H1, H2.
  rewrite H1, H2. unfold tracks. simpl. rewrite !lookup_alter_eq, Hc. simpl.
  repeat split.
  - apply bool_decide_eq_true. set_solver.
  - apply bool_decide_eq_false. set_solver.
Qed.

(** X5. [broadcastStockUpdate] and [broadcastProductUpdate] write their
    message, when [JSON.stringify] accepts it, exactly once to each open
    connection of [wss.clients] that is registered and tracks the
    product, and to nobody else; in particular a connection that has just
    been made to track the product by [trackProduct] gets the stock
    update, and one that has just untracked it does not. *)
Theorem product_updates_reach_trackers (env : Env) (s : State) (p : ProductId) :
  (∀ newStock oldStock,
     serialisable newStock = true → serialisable oldStock = true →
     let msg := STOCK_UPDATE p newStock oldStock (now env) in
     broadcastStockUpdate env p newStock oldStock s
       = (Normal tt, emits (sends msg (broadcast_targets s (Some (tracks p)))) s)
     ∧ (∀ c, sent_to c (sends msg (broadcast_targets s (Some (tracks p))))
             = if bool_decide (c ∈ wss_clients s) && (is_open s c && tracks p (clients s) c)
               then [msg] else [])
     ∧ (∀ env' ws ci, clients s !! ws = Some ci → ws ∈ wss_clients s →
          is_open s ws = true →
          let s1 := exec (trackProduct env' ws p) s in
          let s2 := exec (untrackProduct env' ws p) s in
          sent_to ws (since s1 (exec (broadcastStockUpdate env p newStock oldStock) s1))
            = [msg]
          ∧ sent_to ws (since s2 (exec (broadcastStockUpdate env p newStock oldStock) s2))
            = []))
  ∧ (∀ updateData, serialisable updateData = true →
     let msg := PRODUCT_UPDATE p updateData (now env) in
     broadcastProductUpdate env p updateData s
       = (Normal tt, emits (sends msg (broadcast_targets s (Some (tracks p)))) s)
     ∧ (∀ c, sent_to c (sends msg (broadcast_targets s (Some (tracks p))))
             = if bool_decide (c ∈ wss_clients s) && (is_open s c && tracks p (clients s) c)
               then [msg] else [])).
Proof.
  assert (Hstock : ∀ s0 newStock oldStock,
    serialisable newStock = true → serialisable oldStock = true →
    broadcastStockUpdate env p newStock oldStock s0
    = (Normal tt, emits (sends (STOCK_UPDATE p newStock oldStock (now env))
                           (broadcast_targets s0 (Some (tracks p)))) s0)).
  { intros s0 n o Hn Ho. unfold broadcastStockUpdate. apply broadcast_eq.
    simpl. by rewrite serialisable_js_of_product, Hn, Ho. }
  split.
  - intros n o Hn Ho msg. split; [by apply Hstock|]. split.
    + intros c. apply sent_to_filtered.
    + intros env' ws ci Hc Hw Hopen s1 s2.
      pose proof (tracking_round_trip_aux env' s ws p ci Hc) as (Ht1 & Ht2 & Hs1 & Hs2).
      fold s1 in Ht1, Hs1. fold s2 in Ht2, Hs2.
      destruct Hs1 as (Hw1 & Hso1). destruct Hs2 as (Hw2 & Hso2).
      split.
      * unfold exec. rewrite (Hstock s1 n o Hn Ho). simpl.
        rewrite since_emits.
        unfold broadcast_targets. rewrite sent_to_filtered.
        rewrite Ht1, Hw1, bool_decide_eq_true_2 by done.
        unfold is_open in *. rewrite Hso1. by rewrite Hopen.
      * unfold exec. rewrite (Hstock s2 n o Hn Ho). simpl.
        rewrite since_emits.
        unfold broadcast_targets. rewrite sent_to_filtered.
        rewrite Ht2. by rewrite !andb_false_r.
  - intros d Hd msg. split.
    + unfold broadcastProductUpdate. apply broadcast_eq.
      simpl. by rewrite serialisable_js_of_product, Hd.
    + intros c. apply sent_to_filtered.
Qed.

(** Connection 0 tracks product 42, connection 1 does not. *)
Lemma product_updates_reach_trackers_witness :
  let s := exec (trackProduct env0 0 (PNum 42)) two_connected in
  let msg := STOCK_UPDATE (PNum 42) (JNum (number_of_Z 3)) (JNum (number_of_Z 10))
               (now env0) in
  broadcastStockUpdate env0 (PNum 42) (JNum (number_of_Z 3)) (JNum (number_of_Z 10)) s
  = (Normal tt, emits [Send 0 msg] s).
Proof.
  intros s msg.
  exact (proj1 (proj1 (product_updates_reach_trackers env0 s (PNum 42))
                  (JNum (number_of_Z 3)) (JNum (number_of_Z 10)) eq_refl eq_refl)).
Defined.

(** ** User activity *)

Lemma other_user_spec u (cl : gmap nat ClientInfo) c :
  other_user u cl c = true
  ↔ ∃ ci v, cl !! c = Some ci ∧ userId ci = Some v ∧ v ≠ 0%Z ∧ v ≠ u.
Proof.
  unfold other_user. destruct (cl !! c) as [ci|]; [|naive_solver].
  rewrite andb_true_iff, negb_true_iff, bool_decide_eq_false.
  unfold truthy. destruct (userId ci) as [v|] eqn:Hv.
  - rewrite negb_true_iff, Z.eqb_neq. split.
    + intros [H0 Hu]. exists ci, v. repeat split; try done. congruence.
    + intros (ci' & v' & [= <-] & Hv' & H0 & Hu).
      assert (v' = v) as -> by congruence. split; [done|]. congruence.
  - split; [by intros [? _]|]. intros (ci' & v' & [= <-] & Hv' & _). congruence.
Qed.

(** X6. [broadcastUserActivity] for user [u] writes the USER_ACTIVITY
    message, when [JSON.stringify] accepts the activity, exactly once to
    each open connection of [wss.clients] registered with a truthy user
    identifier other than [u], and to nobody else: never to an anonymous
    connection, never to a connection of [u]. *)
Theorem user_activity_reaches_other_users (env : Env) (s : State) (u : Z) (activity : jsval) :
  serialisable activity = true →
  let msg := USER_ACTIVITY u activity (now env) in
  ∃ es,
    broadcastUserActivity env u activity s = (Normal tt, emits es s)
    ∧ (∀ c, sent_to c es = [msg] ∨ sent_to c es = [])
    ∧ (∀ c, sent_to c es = [msg]
            ↔ c ∈ wss_clients s ∧ is_open s c = true
              ∧ ∃ ci v, clients s !! c = Some ci ∧ userId ci = Some v ∧ v ≠ 0%Z ∧ v ≠ u).
Proof.
  intros Ha msg. eexists. split.
  - unfold broadcastUserActivity. apply broadcast_eq. simpl. by rewrite Ha.
  - assert (Hsent : ∀ c, sent_to c (sends msg (broadcast_targets s (Some (other_user u))))
        = if bool_decide (c ∈ wss_clients s) && (is_open s c && other_user u (clients s) c)
          then [msg] else []) by (intros c; apply sent_to_filtered).
    split; intros c; rewrite Hsent.
    + destruct (_ && _); [by left|by right].
    + rewrite <- other_user_spec.
      destruct (bool_decide (c ∈ wss_clients s)) eqn:Hw, (is_open s c),
        (other_user u (clients s) c); simpl;
        try apply bool_decide_eq_true in Hw; try apply bool_decide_eq_false in Hw;
        naive_solver.
Qed.

(** Connection 0 is of user 7, connection 1 is anonymous. *)
Lemma user_activity_reaches_other_users_witness :
  let msg := USER_ACTIVITY 3 (JStr "PRODUCT_VIEW") (now env0) in
  ∃ es,
    broadcastUserActivity env0 3 (JStr "PRODUCT_VIEW") two_connected
      = (Normal tt, emits es two_connected)
    ∧ (∀ c, sent_to c es = [msg] ∨ sent_to c es = [])
    ∧ (∀ c, sent_to c es = [msg]
            ↔ c ∈ wss_clients two_connected ∧ is_open two_connected c = true
              ∧ ∃ ci v, clients two_connected !! c = Some ci ∧ userId ci = Some v
                        ∧ v ≠ 0%Z ∧ v ≠ 3%Z).
Proof.
  exact (user_activity_reaches_other_users env0 two_connected 3 (JStr "PRODUCT_VIEW")
           eq_refl).
Defined.

End Tracking.

(** ** The notices of a disconnect *)

Section DisconnectNotices.

Lemma flat_map_ext_elem {A B} (f g : A → list B) (l : list A) :
  (∀ x, x ∈ l → f x = g x) → flat_map f l = flat_map g l.
Proof.
  induction l as [|x l IH]; intros H; simpl; [done|].
  rewrite (H x) by left. rewrite IH; [done|]. intros y Hy. apply H. by right.
Qed.

Lemma removeClient_room_step_exact env ws u room s :
  (s0 <- get ;;
   match rooms s0 !! room with
   | None => ret tt
   | Some _ =>
       members <- rooms_get room ;;
       modify (set_rooms <[room := members ∖ {[ws]}]>) ;;
       members <- rooms_get room ;;
       if Nat.eqb (size members) 0
       then modify (set_rooms (delete room))
       else broadcastToRoom room (USER_LEFT u (js_of_size members) (now env)) None
   end) s
  = (Normal tt,
     emits (user_left_notices env ws u s room)
       (set_rooms (partial_alter (without_member ws) room) s)).
Proof.
  rewrite run_get. unfold user_left_notices.
  destruct (rooms s !! room) as [members|] eqn:Hr.
  - rewrite (run_normal _ _ _ _ _ (rooms_get_eq _ _ _ Hr)). rewrite run_modify.
    set (s2 := set_rooms _ s).
    assert (Hr2 : rooms s2 !! room = Some (members ∖ {[ws]}))
      by (simpl; apply lookup_insert_eq).
    rewrite (run_normal _ _ _ _ _ (rooms_get_eq _ _ _ Hr2)).
    rewrite size_zero_iff. destruct (bool_decide (members ∖ {[ws]} = ∅)) eqn:He.
    + apply bool_decide_eq_true in He.
      rewrite emits_nil. unfold modify, s2, set_rooms. simpl.
      by rewrite delete_insert_eq, (partial_alter_without_delete ws room _ members).
    + apply bool_decide_eq_false in He.
      rewrite (broadcastToRoom_eq _ _ _ s2 _ Hr2 (serialisable_USER_LEFT _ _ _)).
      unfold s2, set_rooms. simpl.
      by rewrite (partial_alter_without_insert ws room _ members).
  - rewrite emits_nil.
    unfold ret, set_rooms. rewrite <- partial_alter_without_absent by done.
    by destruct s.
Qed.

Lemma user_left_notices_frame env ws u s s' room :
  rooms s' !! room = rooms s !! room → sockets s' = sockets s →
  user_left_notices env ws u s' room = user_left_notices env ws u s room.
Proof.
  intros Hr Hso. unfold user_left_notices, room_targets, is_open. by rewrite Hr, Hso.
Qed.

Lemma removeClient_rooms_loop_exact env ws u names s :
  NoDup names →
  forEach names (λ room,
    s0 <- get ;;
    match rooms s0 !! room with
    | None => ret tt
    | Some _ =>
        members <- rooms_get room ;;
        modify (set_rooms <[room := members ∖ {[ws]}]>) ;;
        members <- rooms_get room ;;
        if Nat.eqb (size members) 0
        then modify (set_rooms (delete room))
        else broadcastToRoom room (USER_LEFT u (js_of_size members) (now env)) None
    end) s
  = (Normal tt,
     emits (flat_map (user_left_notices env ws u s) names)
       (set_rooms (leave_all ws names) s)).
Proof.
  intros Hnd. revert s. induction Hnd as [|room names Hroom Hnd IH]; intros s.
  - simpl. rewrite emits_nil. by destruct s.
  - cbn [forEach]. rewrite (run_normal _ _ _ _ _ (removeClient_room_step_exact env ws u room s)).
    rewrite IH.
    rewrite (flat_map_ext_elem
               (user_left_notices env ws u
                  (emits (user_left_notices env ws u s room)
                     (set_rooms (partial_alter (without_member ws) room) s)))
               (user_left_notices env ws u s)).
    { unfold emits, set_rooms. simpl. by rewrite app_assoc. }
    intros r Hr. apply user_left_notices_frame; [|done].
    simpl. apply lookup_partial_alter_ne. intros ->. done.
Qed.

Lemma removeClient_eq_exact env ws s ci :
  clients s !! ws = Some ci →
  removeClient env ws s
  = (Normal tt,
     emits (flat_map (user_left_notices env ws (userId ci) s) (elements (ci_rooms ci))
            ++ [Log info])
       (set_clients (delete ws)
          (set_userSockets (forget_socket ws (userId ci))
             (set_rooms (leave_all ws (elements (ci_rooms ci))) s)))).
Proof.
  intros Hc. unfold removeClient. rewrite run_get, Hc.
  assert (Hloop := removeClient_rooms_loop_exact env ws (userId ci)
                     (elements (ci_rooms ci)) s (NoDup_elements _)).
  set (es := flat_map _ _) in *.
  rewrite (run_normal _ _ _ _ _ Hloop). rewrite run_get.
  set (s1 := emits es _).
  assert (Huser : ∀ k : unit → M unit,
    bind (match userId ci with
     | Some user =>
         if truthy (userId ci) && bool_decide (is_Some (userSockets s1 !! user))
         then
           socks <- userSockets_get user ;;
           modify (set_userSockets <[user := socks ∖ {[ws]}]>) ;;
           socks <- userSockets_get user ;;
           if Nat.eqb (size socks) 0
           then modify (set_userSockets (delete user))
           else ret tt
         else ret tt
     | None => ret tt
     end) k s1 = k tt (set_userSockets (forget_socket ws (userId ci)) s1)).
  { intros k. unfold forget_socket. destruct (userId ci) as [u|] eqn:Hu.
    - destruct (truthy (Some u)) eqn:Ht; simpl.
      + destruct (userSockets s !! u) as [socks|] eqn:Hus0;
          pose proof (Hus0 : userSockets s1 !! u = _) as Hus.
        * rewrite bool_decide_eq_true_2 by by eexists.
          rewrite run_assoc.
          rewrite (run_normal _ _ _ _ _ (userSockets_get_eq _ _ _ Hus)).
          rewrite run_assoc, run_modify. set (s2 := set_userSockets _ s1).
          rewrite run_assoc.
          assert (Hus2 : userSockets s2 !! u = Some (socks ∖ {[ws]}))
            by (simpl; apply lookup_insert_eq).
          rewrite (run_normal _ _ _ _ _ (userSockets_get_eq _ _ _ Hus2)).
          rewrite size_zero_iff.
          destruct (bool_decide (socks ∖ {[ws]} = ∅)) eqn:He.
          -- apply bool_decide_eq_true in He. rewrite run_modify.
             unfold s2, set_userSockets. simpl.
             by rewrite delete_insert_eq, (partial_alter_without_delete ws u _ socks).
          -- apply bool_decide_eq_false in He. rewrite run_ret.
             unfold s2, set_userSockets. simpl.
             by rewrite (partial_alter_without_insert ws u _ socks).
        * rewrite bool_decide_eq_false_2 by apply is_Some_None.
          rewrite run_ret. unfold set_userSockets.
          rewrite <- partial_alter_without_absent by done. by destruct s1.
      + rewrite run_ret. by destruct s1.
    - rewrite run_ret. by destruct s1. }
  rewrite Huser. rewrite run_modify. unfold logger, modify.
  rewrite emit_emits. unfold s1. simpl. unfold emits, set_clients, set_userSockets, set_rooms.
  simpl. by rewrite app_assoc.
Qed.






End DisconnectNotices.

(** ** Teardown *)

Section Teardown.

Lemma ws_terminate_eq c s :
  ws_terminate c s = (Normal tt, emits [Terminate c] (set_sockets (alter terminated c) s)).
Proof. reflexivity. Qed.

Lemma terminate_loop l :
  NoDup l → ∀ s,
  ∃ s',
    forEach l (λ c, ws_terminate c) s = (Normal tt, s')
    ∧ effects s' = effects s ++ map Terminate l
    ∧ (∀ ws, sockets s' !! ws
             = if bool_decide (ws ∈ l) then terminated <$> sockets s !! ws
               else sockets s !! ws)
    ∧ clients s' = clients s ∧ rooms s' = rooms s ∧ userSockets s' = userSockets s
    ∧ wss_clients s' = wss_clients s ∧ heartbeatInterval s' = heartbeatInterval s.
Proof.
  intros Hnd. induction Hnd as [|x l Hx Hl IH]; intros s.
  - exists s. simpl. rewrite app_nil_r. by repeat split.
  - cbn [forEach]. rewrite (run_normal _ _ _ _ _ (ws_terminate_eq x s)).
    destruct (IH (emits [Terminate x] (set_sockets (alter terminated x) s)))
      as (s' & Hrun & He & Hso & Hrest).
    exists s'. split; [done|]. split; [|split; [|done]].
    + rewrite He. simpl. by rewrite <- app_assoc.
    + intros ws. rewrite Hso. simpl.
      destruct (decide (ws = x)) as [->|Hne].
      * rewrite (bool_decide_eq_false_2 (x ∈ l)) by done.
        rewrite (bool_decide_eq_true_2 (x ∈ x :: l)) by left.
        by rewrite lookup_alter_eq.
      * rewrite lookup_alter_ne by done.
        rewrite (bool_decide_ext (ws ∈ x :: l) (ws ∈ l)); [done|].
        rewrite elem_of_cons. intuition congruence.
Qed.

(** X8. [destroy] never throws; it asks the transport to terminate every
    connection of [wss.clients], once each, leaves none of them open,
    empties the three indexes and disarms the timer, so that a later
    firing of the timer does nothing and a later frame, whoever sends it,
    is dropped. *)
Theorem destroy_clears_everything (s : State) :
  ∃ s',
    destroy s = (Normal tt, s')
    ∧ clients s' = ∅ ∧ rooms s' = ∅ ∧ userSockets s' = ∅
    ∧ heartbeatInterval s' = false
    ∧ since s s' = map Terminate (elements (wss_clients s))
    ∧ (∀ ws, ws ∈ wss_clients s → is_open s' ws = false)
    ∧ (∀ env, handle env EvTimer s' = (Normal tt, s'))
    ∧ (∀ env ws message, message ≠ FSyntaxError →
         handleMessage env ws message s' = (Normal tt, s')).
Proof.
  assert (Hmain : ∀ s1, wss_clients s1 = wss_clients s → effects s1 = effects s →
            sockets s1 = sockets s →
            ∃ s',
              (forEach (elements (wss_clients s)) (λ client, ws_terminate client) ;;
               modify (set_clients (λ _, ∅)) ;;
               modify (set_rooms (λ _, ∅)) ;;
               modify (set_userSockets (λ _, ∅))) s1 = (Normal tt, s')
              ∧ clients s' = ∅ ∧ rooms s' = ∅ ∧ userSockets s' = ∅
              ∧ heartbeatInterval s' = heartbeatInterval s1
              ∧ effects s' = effects s ++ map Terminate (elements (wss_clients s))
              ∧ (∀ ws, ws ∈ wss_clients s → is_open s' ws = false)).
  { intros s1 Hw He Hso.
    destruct (terminate_loop (elements (wss_clients s)) (NoDup_elements _) s1)
      as (s2 & Hrun & He2 & Hso2 & _ & _ & _ & _ & Hh2).
    rewrite (run_normal _ _ _ _ _ Hrun). rewrite !run_modify.
    eexists. split; [done|]. simpl. repeat split; try done.
    - by rewrite He2, He.
    - intros ws Hws. unfold is_open. simpl. rewrite Hso2.
      rewrite bool_decide_eq_true_2 by by apply elem_of_elements.
      destruct (sockets s1 !! ws) as [sk|]; simpl; [|done].
      unfold terminated. destruct (readyState sk) eqn:E; simpl; try done. by rewrite E. }
  assert (Hfinish : ∀ s', clients s' = ∅ → heartbeatInterval s' = false →
            (∀ env, handle env EvTimer s' = (Normal tt, s'))
            ∧ (∀ env ws message, message ≠ FSyntaxError →
                 handleMessage env ws message s' = (Normal tt, s'))).
  { intros s' Hc Hh. split.
    - intros env. unfold handle. by rewrite run_get, Hh.
    - intros env ws message Hm. unfold handleMessage, try_catch.
      destruct message; try done; by rewrite run_get, Hc, lookup_empty. }
  unfold destroy. rewrite run_get. destruct (heartbeatInterval s) eqn:Hhb.
  - rewrite run_modify.
    destruct (Hmain (set_heartbeatInterval false s) eq_refl eq_refl eq_refl)
      as (s' & Hrun & Hc & Hr & Hu & Hh & He & Ho).
    exists s'. split; [done|]. repeat split; try done.
    + by apply since_app.
    + by apply Hfinish.
    + by apply Hfinish.
  - rewrite run_ret.
    destruct (Hmain s eq_refl eq_refl eq_refl) as (s' & Hrun & Hc & Hr & Hu & Hh & He & Ho).
    exists s'. split; [done|]. repeat split; try done.
    + congruence.
    + by apply since_app.
    + apply Hfinish; congruence.
    + apply Hfinish; congruence.
Qed.

End Teardown.

(** ** Accepting a connection *)

Section Accept.


End Accept.

(** ** The agreement of the indexes along the run *)

#[local] Instance keeps_index_preorder : PreOrder keeps_index.
Proof. split; unfold keeps_index; [intros s; tauto|intros s1 s2 s3; tauto]. Qed.

#[local] Instance covers_preorder : PreOrder covers.
Proof.
  split.
  - by intros s.
  - intros s1 s2 s3 [H1 H2] [H3 H4]. split; set_solver.
Qed.

Section Agreement.

Lemma index_inv_same_indexes s s' : same_indexes s s' → keeps_index s s'.
Proof.
  intros Hsame (I & M1 & M2 & U1 & U2).
  split; [by apply (registry_inv_same_indexes s s')|].
  destruct Hsame as (Hc & Hr & Hu & _).
  unfold members_registered, memberships_indexed, users_indexed, user_entries_nonempty.
  rewrite Hc, Hr, Hu. done.
Qed.

Lemma respects_same_indexes_index {A} (m : M A) :
  respects same_indexes m → respects keeps_index m.
Proof. intros H s. apply index_inv_same_indexes, H. Qed.

(** A mutation of a [clientInfo] that keeps its user and its rooms. *)
Lemma index_inv_alter_client f ws s :
  (∀ c, userId (f c) = userId c) → (∀ c, ci_rooms (f c) = ci_rooms c) →
  keeps_index s (set_clients (alter f ws) s).
Proof.
  intros Hu Hr (I & M1 & M2 & U1 & U2).
  split; [by apply (inv_alter_client f ws s)|].
  assert (Hlook : ∀ c ci, clients s !! c = Some ci →
            ∃ ci', alter f ws (clients s) !! c = Some ci'
                   ∧ userId ci' = userId ci ∧ ci_rooms ci' = ci_rooms ci).
  { intros c ci Hc. destruct (decide (ws = c)) as [->|Hne].
    - exists (f ci). by rewrite lookup_alter_eq, Hc.
    - exists ci. by rewrite lookup_alter_ne. }
  assert (Hback : ∀ c ci', alter f ws (clients s) !! c = Some ci' →
            ∃ ci, clients s !! c = Some ci
                  ∧ userId ci' = userId ci ∧ ci_rooms ci' = ci_rooms ci).
  { intros c ci' Hc. destruct (decide (ws = c)) as [->|Hne].
    - rewrite lookup_alter_eq in Hc. destruct (clients s !! c) as [ci|]; [|done].
      injection Hc as <-. by exists ci.
    - rewrite lookup_alter_ne in Hc by done. by exists ci'. }
  repeat split.
  - intros r members c Hm Hc. simpl in *. destruct (M1 _ _ _ Hm Hc) as (ci & Hci & Hrs).
    destruct (Hlook _ _ Hci) as (ci' & ? & _ & Hrooms). exists ci'. by rewrite Hrooms.
  - intros c ci' r Hc Hrs. simpl in *. destruct (Hback _ _ Hc) as (ci & Hci & _ & Hrooms).
    apply (M2 c ci r Hci). by rewrite <- Hrooms.
  - intros c ci' u Hc Hid Hne. simpl in *.
    destruct (Hback _ _ Hc) as (ci & Hci & Huid & _).
    apply (U1 c ci u Hci); [congruence|done].
  - done.
Qed.

Lemma keeps_index_update_client ws f :
  (∀ c, userId (f c) = userId c) → (∀ c, ci_rooms (f c) = ci_rooms c) →
  respects keeps_index (update_client ws f).
Proof. intros Hu Hr s. by apply index_inv_alter_client. Qed.

Lemma keeps_index_joinRoom env ws r : respects keeps_index (joinRoom env ws r).
Proof.
  intros s Hinv.
  pose proof (keeps_inv_joinRoom env ws r s (proj1 Hinv)) as Hreg.
  split; [done|]. clear Hreg. destruct Hinv as (I & M1 & M2 & U1 & U2).
  unfold exec. destruct (clients s !! ws) as [ci|] eqn:Hc;
    [|by rewrite joinRoom_unregistered].
  rewrite (joinRoom_eq _ _ _ _ _ Hc). cbn [snd].
  set (members := default ∅ (rooms s !! r) ∪ {[ws]}).
  assert (Hold : ∀ m, rooms s !! r = Some m → m ⊆ members).
  { intros m Hm. unfold members. rewrite Hm. simpl. set_solver. }
  assert (Hlook : ∀ c ci', clients s !! c = Some ci' →
            ∃ ci'', alter (with_rooms (λ rs, rs ∪ {[r]})) ws (clients s) !! c = Some ci''
                    ∧ userId ci'' = userId ci' ∧ ci_rooms ci' ⊆ ci_rooms ci''
                    ∧ (c = ws → r ∈ ci_rooms ci'')).
  { intros c ci' Hc'. destruct (decide (ws = c)) as [->|Hne].
    - eexists. rewrite lookup_alter_eq, Hc'. simpl.
      split; [done|]. split; [done|]. split; set_solver.
    - exists ci'. rewrite lookup_alter_ne by done.
      split; [done|]. split; [done|]. split; [done|congruence]. }
  repeat split.
  - intros r' m c. simpl. rewrite lookup_insert. case_decide as Hr.
    + subst r'. intros [= <-] Hin. apply elem_of_union in Hin as [Hin|Hin].
      * destruct (rooms s !! r) as [m0|] eqn:Hm0; [|set_solver]. simpl in Hin.
        destruct (M1 _ _ _ Hm0 Hin) as (ci' & Hci' & Hrs).
        destruct (Hlook _ _ Hci') as (ci'' & ? & _ & Hsub & _). exists ci''. set_solver.
      * apply elem_of_singleton in Hin as ->.
        destruct (Hlook _ _ Hc) as (ci'' & ? & _ & _ & Hin). exists ci''. by auto.
    + intros Hm Hin. destruct (M1 _ _ _ Hm Hin) as (ci' & Hci' & Hrs).
      destruct (Hlook _ _ Hci') as (ci'' & ? & _ & Hsub & _). exists ci''. set_solver.
  - intros c ci'' r'. simpl. intros Hc'' Hr'.
    assert (Hcase : (c = ws ∧ r' = r)
                    ∨ ∃ ci', clients s !! c = Some ci' ∧ r' ∈ ci_rooms ci').
    { destruct (decide (ws = c)) as [->|Hne].
      - rewrite lookup_alter_eq, Hc in Hc''. simpl in Hc''. injection Hc'' as <-.
        simpl in Hr'. apply elem_of_union in Hr' as [Hr'|Hr'].
        + right. by exists ci.
        + left. set_solver.
      - rewrite lookup_alter_ne in Hc'' by done. right. by exists ci''. }
    destruct Hcase as [[-> ->]|(ci' & Hci' & Hrs)].
    + exists members. rewrite lookup_insert_eq. split; [done|]. set_solver.
    + destruct (M2 _ _ _ Hci' Hrs) as (m & Hm & Hin).
      destruct (decide (r = r')) as [<-|Hne].
      * exists members. rewrite lookup_insert_eq. split; [done|]. by apply (Hold m).
      * exists m. by rewrite lookup_insert_ne.
  - intros c ci'' u. simpl. intros Hc'' Hid Hu.
    assert (∃ ci', clients s !! c = Some ci' ∧ userId ci' = Some u) as (ci' & Hci' & Hid').
    { destruct (decide (ws = c)) as [->|Hne].
      - rewrite lookup_alter_eq, Hc in Hc''. simpl in Hc''. injection Hc'' as <-.
        by exists ci.
      - rewrite lookup_alter_ne in Hc'' by done. by exists ci''. }
    by apply (U1 c ci' u).
  - done.
Qed.

Lemma keeps_index_leaveRoom env ws r : respects keeps_index (leaveRoom env ws r).
Proof.
  intros s Hinv.
  pose proof (keeps_inv_leaveRoom env ws r s (proj1 Hinv)) as Hreg.
  split; [done|]. clear Hreg. destruct Hinv as (I & M1 & M2 & U1 & U2).
  unfold exec. destruct (clients s !! ws) as [ci|] eqn:Hc;
    [|by rewrite leaveRoom_unregistered].
  destruct (rooms s !! r) as [members|] eqn:Hr; [|by rewrite leaveRoom_no_room].
  rewrite (leaveRoom_eq _ _ _ _ _ _ Hc Hr). cbn [snd].
  assert (Hrooms : ∀ r' m',
    (if bool_decide (members ∖ {[ws]} = ∅) then delete r (rooms s)
     else <[r := members ∖ {[ws]}]> (rooms s)) !! r' = Some m'
    ↔ (r' = r ∧ m' = members ∖ {[ws]} ∧ members ∖ {[ws]} ≠ ∅)
      ∨ (r' ≠ r ∧ rooms s !! r' = Some m')).
  { intros r' m'. destruct (bool_decide (members ∖ {[ws]} = ∅)) eqn:He.
    - apply bool_decide_eq_true in He. rewrite lookup_delete.
      destruct (decide (r = r')); naive_solver.
    - apply bool_decide_eq_false in He. rewrite lookup_insert.
      destruct (decide (r = r')); naive_solver. }
  repeat split.
  - intros r' m' c. simpl. rewrite Hrooms.
    intros [(-> & -> & Hne)|[Hne Hm']] Hin.
    + assert (c ∈ members ∧ c ≠ ws) as [Hin' Hcw] by set_solver.
      destruct (M1 _ _ _ Hr Hin') as (ci' & Hci' & Hrs).
      exists ci'. by rewrite lookup_alter_ne.
    + destruct (M1 _ _ _ Hm' Hin) as (ci' & Hci' & Hrs).
      destruct (decide (ws = c)) as [->|Hcw].
      * eexists. rewrite lookup_alter_eq, Hci'. simpl. split; [done|]. set_solver.
      * exists ci'. by rewrite lookup_alter_ne.
  - intros c ci'' r'. simpl. intros Hc'' Hr'.
    setoid_rewrite Hrooms.
    destruct (decide (ws = c)) as [->|Hcw].
    + rewrite lookup_alter_eq, Hc in Hc''. simpl in Hc''. injection Hc'' as <-.
      simpl in Hr'. assert (r' ∈ ci_rooms ci ∧ r' ≠ r) as [Hin Hne] by set_solver.
      destruct (M2 _ _ _ Hc Hin) as (m & Hm & Hcm). exists m. split; [|done]. by right.
    + rewrite lookup_alter_ne in Hc'' by done.
      destruct (M2 _ _ _ Hc'' Hr') as (m & Hm & Hcm).
      destruct (decide (r' = r)) as [->|Hne].
      * assert (m = members) as -> by congruence.
        exists (members ∖ {[ws]}). split; [|set_solver].
        left. repeat split. set_solver.
      * exists m. split; [|done]. by right.
  - intros c ci'' u. simpl. intros Hc'' Hid Hu.
    assert (∃ ci', clients s !! c = Some ci' ∧ userId ci' = Some u) as (ci' & Hci' & Hid').
    { destruct (decide (ws = c)) as [->|Hne].
      - rewrite lookup_alter_eq, Hc in Hc''. simpl in Hc''. injection Hc'' as <-.
        by exists ci.
      - rewrite lookup_alter_ne in Hc'' by done. by exists ci''. }
    by apply (U1 c ci' u).
  - done.
Qed.

Lemma without_member_idemp ws entry :
  without_member ws (without_member ws entry) = without_member ws entry.
Proof.
  destruct entry as [m|]; simpl; [|done].
  destruct (bool_decide (m ∖ {[ws]} = ∅)) eqn:He; simpl; [done|].
  assert (m ∖ {[ws]} ∖ {[ws]} = m ∖ {[ws]}) as -> by set_solver. by rewrite He.
Qed.

Lemma leave_all_lookup ws names (index : gmap string (gset nat)) r :
  leave_all ws names index !! r
  = if bool_decide (r ∈ names) then without_member ws (index !! r) else index !! r.
Proof.
  revert index. induction names as [|x names IH]; intros index; simpl; [done|].
  rewrite IH, lookup_partial_alter. destruct (decide (x = r)) as [->|Hne].
  - rewrite (bool_decide_eq_true_2 (r ∈ r :: names)) by left.
    destruct (bool_decide (r ∈ names)); [apply without_member_idemp|done].
  - rewrite (bool_decide_ext (r ∈ x :: names) (r ∈ names)); [done|].
    rewrite elem_of_cons. intuition congruence.
Qed.

Lemma without_member_Some ws entry m' :
  without_member ws entry = Some m'
  ↔ ∃ m, entry = Some m ∧ m' = m ∖ {[ws]} ∧ m ∖ {[ws]} ≠ ∅.
Proof.
  destruct entry as [m|]; simpl; [|naive_solver].
  destruct (bool_decide (m ∖ {[ws]} = ∅)) eqn:He.
  - apply bool_decide_eq_true in He. naive_solver.
  - apply bool_decide_eq_false in He. naive_solver.
Qed.

Lemma keeps_index_removeClient env ws : respects keeps_index (removeClient env ws).
Proof.
  intros s Hinv.
  pose proof (keeps_inv_removeClient env ws s (proj1 Hinv)) as Hreg.
  split; [done|]. clear Hreg. destruct Hinv as ((I1 & I2 & I3) & M1 & M2 & U1 & U2).
  unfold exec. destruct (clients s !! ws) as [ci|] eqn:Hc;
    [|by rewrite removeClient_unregistered].
  rewrite (removeClient_eq_exact _ _ _ _ Hc). cbn [snd].
  repeat split.
  - intros r m' c. simpl. rewrite leave_all_lookup.
    destruct (bool_decide (r ∈ elements (ci_rooms ci))) eqn:Hr.
    + intros (m & Hm & -> & _)%without_member_Some Hin.
      assert (c ∈ m ∧ c ≠ ws) as [Hin' Hne] by set_solver.
      destruct (M1 _ _ _ Hm Hin') as (ci' & Hci' & Hrs).
      exists ci'. by rewrite lookup_delete_ne.
    + apply bool_decide_eq_false in Hr. rewrite elem_of_elements in Hr.
      intros Hm Hin. destruct (M1 _ _ _ Hm Hin) as (ci' & Hci' & Hrs).
      assert (c ≠ ws) by (intros ->; congruence).
      exists ci'. by rewrite lookup_delete_ne.
  - intros c ci' r. simpl. intros Hc' Hrs.
    apply lookup_delete_Some in Hc' as [Hne Hc'].
    destruct (M2 _ _ _ Hc' Hrs) as (m & Hm & Hin).
    rewrite leave_all_lookup, Hm.
    destruct (bool_decide (r ∈ elements (ci_rooms ci))).
    + exists (m ∖ {[ws]}). simpl. rewrite bool_decide_eq_false_2 by set_solver.
      split; [done|set_solver].
    + by exists m.
  - intros c ci' u. simpl. intros Hc' Hid Hu.
    apply lookup_delete_Some in Hc' as [Hne Hc'].
    destruct (U1 _ _ _ Hc' Hid Hu) as (socks & Hs & Hin).
    unfold forget_socket. destruct (userId ci) as [u0|]; [|by exists socks].
    destruct (truthy (Some u0)); [|by exists socks].
    rewrite lookup_partial_alter. destruct (decide (u0 = u)) as [->|Hne'].
    + rewrite Hs. simpl. rewrite bool_decide_eq_false_2 by set_solver.
      exists (socks ∖ {[ws]}). split; [done|set_solver].
    + by exists socks.
  - intros u socks'. simpl. unfold forget_socket.
    destruct (userId ci) as [u0|]; [|apply U2].
    destruct (truthy (Some u0)); [|apply U2].
    rewrite lookup_partial_alter. destruct (decide (u0 = u)) as [->|Hne'].
    + by intros (m & _ & -> & ?)%without_member_Some.
    + apply U2.
Qed.

Lemma keeps_index_connection env user :
  respects keeps_index (handle env (EvConnection user)).
Proof.
  intros s Hinv.
  pose proof (keeps_inv_connection env user s (proj1 Hinv)) as Hreg.
  split; [done|]. clear Hreg. destruct Hinv as ((I1 & I2 & I3) & M1 & M2 & U1 & U2).
  unfold exec. rewrite connection_eq. cbn [snd].
  assert (Hnew : clients s !! new_ws s = None).
  { destruct (clients s !! new_ws s) eqn:Hc; [|done].
    destruct (I3 (new_ws s)) as [sk Hsk]; [by eexists|].
    by rewrite new_ws_fresh in Hsk. }
  repeat split.
  - intros r m c. simpl. intros Hm Hin. destruct (M1 _ _ _ Hm Hin) as (ci & Hci & Hrs).
    exists ci. rewrite lookup_insert_ne; [done|]. congruence.
  - intros c ci r. simpl. rewrite lookup_insert. case_decide.
    + intros [= <-]. simpl. set_solver.
    + apply M2.
  - intros c ci u. simpl. rewrite lookup_insert. unfold remember_socket.
    destruct (decide (new_ws s = c)) as [<-|Hne].
    + intros [= <-]. simpl. intros -> Hu.
      assert (Ht : truthy (Some u) = true) by (simpl; by apply negb_true_iff, Z.eqb_neq).
      rewrite Ht. eexists. rewrite lookup_insert_eq. split; [done|]. set_solver.
    + intros Hc Hid Hu. destruct (U1 _ _ _ Hc Hid Hu) as (socks & Hs & Hin).
      destruct user as [u0|]; [|by exists socks].
      destruct (truthy (Some u0)); [|by exists socks].
      rewrite lookup_insert. destruct (decide (u0 = u)) as [->|Hne'].
      * rewrite Hs. simpl. eexists. split; [done|]. set_solver.
      * by exists socks.
  - intros u socks. simpl. unfold remember_socket.
    destruct user as [u0|]; [|apply U2].
    destruct (truthy (Some u0)); [|apply U2].
    rewrite lookup_insert. case_decide; [|apply U2].
    intros [= <-]. set_solver.
Qed.

Lemma index_inv_empty s :
  clients s = ∅ → rooms s = ∅ → userSockets s = ∅ → index_inv s.
Proof.
  intros Hc Hr Hu.
  unfold index_inv, registry_inv, rooms_nonempty, user_index_exact, clients_have_sockets,
    members_registered, memberships_indexed, users_indexed, user_entries_nonempty.
  rewrite Hc, Hr, Hu. repeat split; intros *; rewrite ?lookup_empty; try done.
Qed.

Lemma keeps_index_destroy : respects keeps_index destroy.
Proof.
  intros s _. destruct (destroy_clears_everything s) as (s' & Heq & Hc & Hr & Hu & _).
  unfold exec. rewrite Heq. by apply index_inv_empty.
Qed.

Ltac keeps_index_all :=
  respects_with ltac:(
    idtac; lazymatch goal with
    | |- respects _ (update_client _ _) => by apply keeps_index_update_client
    | |- respects _ (sendToClient _ _) =>
        apply respects_same_indexes_index, same_indexes_sendToClient
    | |- respects _ (broadcast _ _) =>
        apply respects_same_indexes_index, same_indexes_broadcast
    | |- respects _ (broadcastToRoom _ _ _) =>
        apply respects_same_indexes_index, same_indexes_broadcastToRoom
    | |- respects _ (sendNotification _ _ _) =>
        apply respects_same_indexes_index, same_indexes_sendNotification
    | |- respects _ (logger _) => apply respects_same_indexes_index, same_indexes_logger
    | |- respects _ (set_isAlive _ _) =>
        apply respects_same_indexes_index, same_indexes_set_isAlive
    | |- respects _ heartbeat => apply respects_same_indexes_index, same_indexes_heartbeat
    | |- respects _ (modify (set_sockets (alter _ _))) =>
        apply respects_same_indexes_index, respects_modify; intros ?;
        apply same_indexes_alter_socket
    | |- respects _ (modify (set_wss_clients _)) =>
        apply respects_same_indexes_index, respects_modify; intros ?;
        apply same_indexes_wss_clients
    | |- respects _ (joinRoom _ _ _) => apply keeps_index_joinRoom
    | |- respects _ (leaveRoom _ _ _) => apply keeps_index_leaveRoom
    | |- respects _ (removeClient _ _) => apply keeps_index_removeClient
    | |- respects _ destroy => apply keeps_index_destroy
    end).

Lemma keeps_index_handleMessage env ws message :
  respects keeps_index (handleMessage env ws message).
Proof. unfold handleMessage, trackProduct, untrackProduct. keeps_index_all. Qed.

Lemma keeps_index_call env c : respects keeps_index (call env c).
Proof.
  destruct c; simpl;
    unfold trackProduct, untrackProduct, broadcastProductUpdate, broadcastStockUpdate,
      broadcastPriceUpdate, broadcastNewProduct, broadcastUserActivity,
      broadcastAnalyticsUpdate;
    keeps_index_all.
Qed.

Lemma keeps_index_handle env ev : respects keeps_index (handle env ev).
Proof.
  destruct ev; [apply keeps_index_connection|..]; simpl.
  - apply keeps_index_handleMessage.
  - keeps_index_all.
  - keeps_index_all.
  - keeps_index_all.
  - keeps_index_all.
  - apply keeps_index_call.
Qed.

Lemma index_inv_initial : index_inv initial.
Proof. by apply index_inv_empty. Qed.

Lemma index_inv_run s evs : index_inv s → index_inv (run s evs).
Proof.
  revert s. induction evs as [|[env ev] evs IH]; intros s Hs; [done|].
  simpl. apply IH. by apply keeps_index_handle.
Qed.

Lemma covers_keep s s' :
  clients s' = clients s → wss_clients s' = wss_clients s → covers s s'.
Proof. intros Hc Hw. unfold covers. by rewrite Hc, Hw. Qed.

Lemma covers_alter f c s : covers s (set_clients (alter f c) s).
Proof. split; simpl; [by rewrite dom_alter_L|done]. Qed.

Lemma covers_delete c s : covers s (set_clients (delete c) s).
Proof. split; simpl; [rewrite dom_delete_L; set_solver|done]. Qed.

Lemma covers_clear s : covers s (set_clients (λ _, ∅) s).
Proof. split; simpl; [rewrite dom_empty_L; set_solver|done]. Qed.

Ltac covers_steps :=
  respects_with ltac:(
    idtac; lazymatch goal with
    | |- respects _ (modify _) =>
        apply respects_modify; intros ?;
        first [ by apply covers_keep | apply covers_alter | apply covers_delete
              | apply covers_clear ]
    end).

Lemma covers_removeClient env ws : respects covers (removeClient env ws).
Proof. unfold removeClient, broadcastToRoom. covers_steps. Qed.

Lemma covers_handleMessage env ws message : respects covers (handleMessage env ws message).
Proof.
  unfold handleMessage, joinRoom, leaveRoom, trackProduct, untrackProduct,
    broadcastToRoom, sendToClient.
  covers_steps.
Qed.

Lemma covers_call env c : respects covers (call env c).
Proof.
  destruct c; simpl;
    try apply covers_removeClient;
    unfold joinRoom, leaveRoom, trackProduct, untrackProduct, broadcastProductUpdate,
      broadcastStockUpdate, broadcastPriceUpdate, broadcastNewProduct,
      broadcastUserActivity, sendNotification, broadcastAnalyticsUpdate, broadcast,
      broadcastToRoom, sendToClient, destroy;
    covers_steps.
Qed.

Lemma clients_in_wss_covers s s' : covers s s' → clients_in_wss s → clients_in_wss s'.
Proof.
  intros [Hc Hw] H c Hin. apply Hw, H. apply elem_of_dom.
  apply Hc. by apply elem_of_dom.
Qed.

Lemma respects_covers_in {A} (m : M A) s :
  respects covers m → clients_in_wss s → clients_in_wss (exec m s).
Proof. intros Hm. apply clients_in_wss_covers, Hm. Qed.

Lemma removeClient_gone env ws s : clients (exec (removeClient env ws) s) !! ws = None.
Proof.
  unfold exec. destruct (clients s !! ws) as [ci|] eqn:Hc.
  - rewrite (removeClient_eq_exact _ _ _ _ Hc). simpl. apply lookup_delete_eq.
  - by rewrite removeClient_unregistered.
Qed.

Lemma clients_in_wss_handle env ev s :
  registry_inv s → clients_in_wss s → clients_in_wss (exec (handle env ev) s).
Proof.
  intros Hreg Hin.
  destruct ev as [user|c message|c|c|c| |c].
  - unfold exec. rewrite connection_eq. unfold clients_in_wss. simpl. intros c.
    rewrite lookup_insert_is_Some'. intros [->|Hc]; [set_solver|].
    apply elem_of_union. left. by apply Hin.
  - apply respects_covers_in; [apply covers_handleMessage|done].
  - simpl. unfold exec. rewrite !run_modify.
    set (s1 := set_wss_clients _ _).
    fold (exec (removeClient env c) s1).
    pose proof (covers_removeClient env c s1) as [Hc Hw].
    pose proof (removeClient_gone env c s1) as Hgone.
    intros x Hx.
    assert (x ≠ c) by (intros ->; rewrite Hgone in Hx; by destruct Hx).
    apply Hw. simpl. apply elem_of_difference. split; [|set_solver].
    apply Hin. apply elem_of_dom. apply elem_of_dom in Hx. by apply Hc in Hx.
  - apply respects_covers_in; [|done]. simpl.
    apply respects_bind; [apply _| |intros ?; apply covers_removeClient].
    unfold logger. covers_steps.
  - apply respects_covers_in; [|done]. simpl. covers_steps.
  - apply respects_covers_in; [|done]. simpl.
    unfold heartbeat. covers_steps.
  - apply respects_covers_in; [apply covers_call|done].
Qed.

Lemma clients_in_wss_run s evs :
  registry_inv s → clients_in_wss s → clients_in_wss (run s evs).
Proof.
  revert s. induction evs as [|[env ev] evs IH]; intros s Hreg Hin; [done|].
  simpl. apply IH.
  - by apply keeps_inv_handle.
  - by apply clients_in_wss_handle.
Qed.

(** X10. In every state the manager can reach, the indexes agree: every
    member of a room is a registered connection whose own room set holds
    the room, and every room of a connection's room set is in the index
    with the connection as a member; a registered connection whose user
    identifier is truthy is in its user's set, and no user's set is
    empty; every registered connection is in [wss.clients]. *)
Theorem indexes_agree_reachable (evs : list (Env * Event)) :
  let s := run initial evs in
  members_registered s ∧ memberships_indexed s ∧ users_indexed s
  ∧ user_entries_nonempty s ∧ clients_in_wss s.
Proof.
  intros s.
  destruct (index_inv_run initial evs index_inv_initial) as (_ & M1 & M2 & U1 & U2).
  repeat split; try done.
  apply clients_in_wss_run; [apply registry_inv_initial|].
  intros c [? Hc]. simpl in Hc. by rewrite lookup_empty in Hc.
Qed.

Lemma removeClient_wss_clients env ws s :
  wss_clients (exec (removeClient env ws) s) = wss_clients s.
Proof.
  unfold exec. destruct (clients s !! ws) as [ci|] eqn:Hc.
  - by rewrite (removeClient_eq_exact _ _ _ _ Hc).
  - by rewrite removeClient_unregistered.
Qed.

Lemma unregistered_in_no_index ws s :
  index_inv s → clients s !! ws = None →
  (∀ r m, rooms s !! r = Some m → ws ∉ m)
  ∧ (∀ u socks, userSockets s !! u = Some socks → ws ∉ socks).
Proof.
  intros ((_ & I2 & _) & M1 & _) Hc. split.
  - intros r m Hm Hin. destruct (M1 _ _ _ Hm Hin) as (ci & Hci & _). congruence.
  - intros u socks Hu Hin. destruct (I2 _ _ _ Hu Hin) as (ci & Hci & _). congruence.
Qed.

(** X11. In every state the manager can reach, cleaning up a connection
    leaves no trace of it: after [removeClient], or after the [close]
    event of the connection, it is in no room's member set and in no
    user's set, and it is not in the primary map; after the [close]
    event it is not in [wss.clients] either. *)
Theorem disconnect_evicts_everywhere (evs : list (Env * Event)) (env : Env) (ws : nat) :
  let s := run initial evs in
  let s1 := exec (removeClient env ws) s in
  let s2 := step s (env, EvClose ws) in
  (clients s1 !! ws = None
   ∧ (∀ r m, rooms s1 !! r = Some m → ws ∉ m)
   ∧ (∀ u socks, userSockets s1 !! u = Some socks → ws ∉ socks))
  ∧ (clients s2 !! ws = None
     ∧ (∀ r m, rooms s2 !! r = Some m → ws ∉ m)
     ∧ (∀ u socks, userSockets s2 !! u = Some socks → ws ∉ socks)
     ∧ ws ∉ wss_clients s2).
Proof.
  intros s s1 s2.
  pose proof (index_inv_run initial evs index_inv_initial) as Hs. fold s in Hs.
  split.
  - pose proof (removeClient_gone env ws s) as Hgone. fold s1 in Hgone.
    split; [done|]. apply unregistered_in_no_index; [|done].
    by apply keeps_index_removeClient.
  - set (s0 := set_wss_clients (λ cs, cs ∖ {[ws]})
                 (set_sockets (alter (λ sk, mkSocket CLOSED (isAlive sk)) ws) s)).
    assert (Hs2 : s2 = exec (removeClient env ws) s0) by done.
    assert (Hgone : clients s2 !! ws = None) by (rewrite Hs2; apply removeClient_gone).
    split; [done|].
    assert (Hinv : index_inv s2) by by apply (keeps_index_handle env (EvClose ws) s).
    destruct (unregistered_in_no_index ws s2 Hinv Hgone) as [Hr Hu].
    split; [done|]. split; [done|].
    rewrite Hs2, removeClient_wss_clients. simpl. set_solver.
Qed.

Lemma registered_user_indexed s ws ci u :
  users_indexed s → clients s !! ws = Some ci → userId ci = Some u → u ≠ 0%Z →
  ∃ socks, userSockets s !! u = Some socks ∧ ws ∈ socks.
Proof. intros H. apply H. Qed.

(** X12. In every state the manager can reach, [sendNotification] for a
    user reaches every open registered connection of that user: with a
    notification [JSON.stringify] accepts, each of them is written the
    NOTIFICATION message exactly once, and a connection that is written
    anything is a registered connection of the user. No connection is
    ever indexed under the user identifier 0, so a notification for user
    0 is always dropped. *)
Theorem notification_reaches_user (evs : list (Env * Event)) (env : Env) (u : Z)
    (n : list (string * jsval)) :
  let s := run initial evs in
  let s' := exec (sendNotification env u n) s in
  let message := NOTIFICATION n (generateNotificationId env) (now env) in
  serialisable (JObj n) = true →
  (∀ ws ci, clients s !! ws = Some ci → userId ci = Some u → u ≠ 0%Z →
     is_open s ws = true → sent_to ws (since s s') = [message])
  ∧ (∀ c, sent_to c (since s s') ≠ [] →
       ∃ ci, clients s !! c = Some ci ∧ userId ci = Some u)
  ∧ (u = 0%Z → sendNotification env u n s = (Normal tt, s)).
Proof.
  intros s s' message Hn.
  pose proof (index_inv_run initial evs index_inv_initial)
    as ((_ & I2 & _) & _ & _ & U1 & _). fold s in I2, U1.
  assert (Hentry : ∀ socks, userSockets s !! u = Some socks →
            ∀ c, sent_to c (since s s')
                 = if bool_decide (c ∈ socks) && is_open s c then [message] else []).
  { intros socks Hu c. unfold s', exec, sendNotification.
    rewrite run_get, Hu. rewrite (run_normal _ _ _ _ _ (userSockets_get_eq _ _ _ Hu)).
    rewrite (forEach_sendToClient _ _ _ (serialisable_NOTIFICATION _ _ _ Hn)). simpl.
    rewrite since_emits. apply sent_to_filtered. }
  assert (Hnone : userSockets s !! u = None →
            sendNotification env u n s = (Normal tt, s)).
  { intros Hu. unfold sendNotification. by rewrite run_get, Hu. }
  split; [|split].
  - intros ws ci Hc Hid Hu Hopen.
    destruct (U1 _ _ _ Hc Hid Hu) as (socks & Hs & Hin).
    rewrite (Hentry socks Hs). by rewrite bool_decide_eq_true_2, Hopen.
  - intros c Hsent. destruct (userSockets s !! u) as [socks|] eqn:Hu.
    + rewrite (Hentry socks eq_refl) in Hsent.
      destruct (bool_decide (c ∈ socks)) eqn:Hin; [|done].
      apply bool_decide_eq_true in Hin.
      destruct (I2 _ _ _ Hu Hin) as (ci & Hci & Hid & _). by exists ci.
    + exfalso. apply Hsent. unfold s', exec. rewrite (Hnone eq_refl). simpl.
      unfold since. by rewrite drop_all.
  - intros ->. apply Hnone. destruct (userSockets s !! 0%Z) as [socks|] eqn:Hu; [|done].
    exfalso.
    pose proof (index_inv_run initial evs index_inv_initial) as (_ & _ & _ & _ & U2).
    fold s in U2. specialize (U2 _ _ Hu).
    assert (∃ c, c ∈ socks) as [c Hc] by (apply set_choose_L; done).
    destruct (I2 _ _ _ Hu Hc) as (ci & _ & _ & Ht). done.
Qed.

Lemma notification_reaches_user_witness :
  sent_to 0 (since two_connected
               (exec (sendNotification env0 7 [("title", JStr "Order shipped")])
                     two_connected))
  = [NOTIFICATION [("title", JStr "Order shipped")]
       (generateNotificationId env0) (now env0)].
Proof.
  assert (H1 : clients two_connected !! 0
               = Some (mkClientInfo (generateClientId env0) (Some 7%Z) (now env0)
                         (now env0) ∅ ∅)) by (vm_compute; reflexivity).
  assert (H2 : is_open two_connected 0 = true) by (vm_compute; reflexivity).
  assert (H3 : 7%Z ≠ 0%Z) by discriminate.
  exact (proj1 (notification_reaches_user
                  [(env0, EvConnection (Some 7%Z)); (env0, EvConnection None)]
                  env0 7 [("title", JStr "Order shipped")] eq_refl)
           0 _ H1 eq_refl H3 H2).
Defined.

End Agreement.

(** ** Statistics *)

Section Statistics.





End Statistics.

(** ** The room-scoped feeds *)

Section Feeds.

Lemma room_feed_after_join env ws r s ci msg :
  clients s !! ws = Some ci → is_open s ws = true → serialisable msg = true →
  let s1 := exec (handleMessage env ws (FJoinRoom r)) s in
  sent_to ws (since s1 (exec (broadcastToRoom r msg None) s1)) = [msg].
Proof.
  intros Hc Hopen Hmsg s1.
  assert (Hc' : clients (touch env ws s) !! ws = Some (with_lastActivity (now env) ci)).
  { simpl. by rewrite lookup_alter_eq, Hc. }
  assert (Hs1 : s1 = snd (joinRoom env ws r (touch env ws s))).
  { unfold s1, exec. by rewrite (handleMessage_join _ _ _ _ _ Hc). }
  rewrite (joinRoom_eq _ _ _ _ _ Hc') in Hs1. simpl in Hs1.
  set (members := default ∅ (rooms s !! r) ∪ {[ws]}) in *.
  assert (Hr1 : rooms s1 !! r = Some members).
  { rewrite Hs1. simpl. apply lookup_insert_eq. }
  assert (Ho1 : is_open s1 ws = true) by (by rewrite Hs1).
  unfold exec. rewrite (broadcastToRoom_eq _ _ _ _ _ Hr1 Hmsg). simpl.
  rewrite since_emits. unfold room_targets. rewrite sent_to_filtered.
  rewrite bool_decide_eq_true_2 by (unfold members; set_solver).
  by rewrite Ho1.
Qed.

Lemma room_feed_after_leave env ws r s ci msg :
  clients s !! ws = Some ci → serialisable msg = true →
  let s2 := exec (handleMessage env ws (FLeaveRoom r)) s in
  sent_to ws (since s2 (exec (broadcastToRoom r msg None) s2)) = [].
Proof.
  intros Hc Hmsg s2.
  assert (Hc' : clients (touch env ws s) !! ws = Some (with_lastActivity (now env) ci)).
  { simpl. by rewrite lookup_alter_eq, Hc. }
  assert (Hs2 : s2 = snd (leaveRoom env ws r (touch env ws s))).
  { unfold s2, exec. by rewrite (handleMessage_leave _ _ _ _ _ Hc). }
  destruct (rooms s !! r) as [members|] eqn:Hr.
  - assert (Hr' : rooms (touch env ws s) !! r = Some members) by done.
    rewrite (leaveRoom_eq _ _ _ _ _ _ Hc' Hr') in Hs2. simpl in Hs2.
    destruct (decide (members ∖ {[ws]} = ∅)) as [He|Hne].
    + assert (Hr2 : rooms s2 !! r = None).
      { rewrite Hs2. simpl. rewrite bool_decide_eq_true_2 by done.
        apply lookup_delete_eq. }
      unfold exec. rewrite (broadcastToRoom_absent _ _ _ _ Hr2). simpl.
      unfold since. by rewrite drop_all.
    + assert (Hr2 : rooms s2 !! r = Some (members ∖ {[ws]})).
      { rewrite Hs2. simpl. rewrite bool_decide_eq_false_2 by done.
        apply lookup_insert_eq. }
      unfold exec. rewrite (broadcastToRoom_eq _ _ _ _ _ Hr2 Hmsg). simpl.
      rewrite since_emits. unfold room_targets. rewrite sent_to_filtered.
      rewrite bool_decide_eq_false_2 by set_solver. done.
  - assert (Hr' : rooms (touch env ws s) !! r = None) by done.
    rewrite (leaveRoom_no_room _ _ _ _ Hr') in Hs2. simpl in Hs2.
    assert (Hr2 : rooms s2 !! r = None) by (by rewrite Hs2).
    unfold exec. rewrite (broadcastToRoom_absent _ _ _ _ Hr2). simpl.
    unfold since. by rewrite drop_all.
Qed.

(** X14. The analytics feed and the new-product feed follow room
    membership and nothing else: once an open registered connection,
    whoever its user is, has sent JOIN_ROOM for "admin-dashboard" it is
    written the next ANALYTICS_UPDATE exactly once, and likewise
    NEW_PRODUCT for "new-releases"; once it has sent LEAVE_ROOM it is
    written neither. While nobody is in the room the call returns without
    even serialising its argument. *)
Theorem feeds_follow_membership (env env' : Env) (s : State) (ws : nat) (ci : ClientInfo) :
  clients s !! ws = Some ci → is_open s ws = true →
  let joined r := exec (handleMessage env ws (FJoinRoom r)) s in
  let left r := exec (handleMessage env ws (FLeaveRoom r)) s in
  (∀ data, serialisable data = true →
     sent_to ws (since (joined "admin-dashboard")
                   (exec (broadcastAnalyticsUpdate env' data) (joined "admin-dashboard")))
       = [ANALYTICS_UPDATE data (now env')]
     ∧ sent_to ws (since (left "admin-dashboard")
                     (exec (broadcastAnalyticsUpdate env' data) (left "admin-dashboard")))
       = [])
  ∧ (∀ product, serialisable product = true →
       sent_to ws (since (joined "new-releases")
                     (exec (broadcastNewProduct env' product) (joined "new-releases")))
         = [NEW_PRODUCT product (now env')]
       ∧ sent_to ws (since (left "new-releases")
                       (exec (broadcastNewProduct env' product) (left "new-releases")))
         = [])
  ∧ (∀ data, rooms s !! "admin-dashboard" = None →
       broadcastAnalyticsUpdate env' data s = (Normal tt, s))
  ∧ (∀ product, rooms s !! "new-releases" = None →
       broadcastNewProduct env' product s = (Normal tt, s)).
Proof.
  intros Hc Hopen joined left.
  split; [|split; [|split]].
  - intros data Hd.
    assert (Hm : serialisable (ANALYTICS_UPDATE data (now env')) = true)
      by (simpl; by rewrite Hd).
    split.
    + apply (room_feed_after_join env ws "admin-dashboard" s ci _ Hc Hopen Hm).
    + apply (room_feed_after_leave env ws "admin-dashboard" s ci _ Hc Hm).
  - intros product Hp.
    assert (Hm : serialisable (NEW_PRODUCT product (now env')) = true)
      by (simpl; by rewrite Hp).
    split.
    + apply (room_feed_after_join env ws "new-releases" s ci _ Hc Hopen Hm).
    + apply (room_feed_after_leave env ws "new-releases" s ci _ Hc Hm).
  - intros data Hr. by apply broadcastToRoom_absent.
  - intros product Hr. by apply broadcastToRoom_absent.
Qed.

Lemma feeds_follow_membership_witness :
  sent_to 1 (since (exec (handleMessage env0 1 (FJoinRoom "admin-dashboard")) two_connected)
               (exec (broadcastAnalyticsUpdate env0 (JObj [("sales", JNum (number_of_Z 3))]))
                  (exec (handleMessage env0 1 (FJoinRoom "admin-dashboard")) two_connected)))
  = [ANALYTICS_UPDATE (JObj [("sales", JNum (number_of_Z 3))]) (now env0)].
Proof.
  assert (H1 : clients two_connected !! 1
               = Some (mkClientInfo (generateClientId env0) None (now env0)
                         (now env0) ∅ ∅)) by (vm_compute; reflexivity).
  assert (H2 : is_open two_connected 1 = true) by (vm_compute; reflexivity).
  exact (proj1 (proj1 (feeds_follow_membership env0 env0 two_connected 1 _ H1 H2)
                  (JObj [("sales", JNum (number_of_Z 3))]) eq_refl)).
Defined.

End Feeds.

(** ** The count of online users *)

Section OnlineUsers.



End OnlineUsers.
